(** * Route repository operations of satellite/routes/manager.py

    A shallow embedding of the route manager: the validation cascade
    (check_filter, check_route), the reconciliation of a route's rule
    entries inside update, and the repository operations get, get_all,
    create, update, delete and replace, run against an explicit model of
    the shared storage session. *)

From Stdlib Require Import Ascii.
From stdpp Require Import base option list strings gmap countable pretty.

(** ** Python values carried by payloads and entities *)

(** Field values of a JSON-like payload: None, a boolean or a string. *)
Inductive scalar :=
  | SNone
  | SBool (b : bool)
  | SStr (s : string).

Global Instance scalar_eq_dec : EqDecision scalar.
Proof. solve_decision. Defined.

Definition scalar_to_sum (v : scalar) : option (bool + string) :=
  match v with
  | SNone => None
  | SBool b => Some (inl b)
  | SStr s => Some (inr s)
  end.

Definition scalar_of_sum (o : option (bool + string)) : scalar :=
  match o with
  | None => SNone
  | Some (inl b) => SBool b
  | Some (inr s) => SStr s
  end.

Global Instance scalar_countable : Countable scalar.
Proof.
  apply (inj_countable' scalar_to_sum scalar_of_sum).
  by intros [].
Defined.

(** A value of the route payload: a scalar, or a list of rule-entry dicts. *)
Inductive value :=
  | Scalar (v : scalar)
  | Records (l : list (gmap string scalar)).

Global Instance value_eq_dec : EqDecision value.
Proof. solve_decision. Defined.

(** Python truthiness, as used by [if x:] and [x or y]. *)
Definition truthy_scalar (v : scalar) : bool :=
  match v with
  | SNone => false
  | SBool b => b
  | SStr s => negb (String.eqb s "")
  end.

Definition truthy (v : value) : bool :=
  match v with
  | Scalar v => truthy_scalar v
  | Records l => negb (bool_decide (l = []))
  end.

(** ** Entities *)

(** Modelled from the spec: the classes RuleEntry and Route of
    satellite/db/models/route.py are outside the sources.  A rule entry has
    an id and attributes opaque to the manager; it is the map of the
    attributes that were set on it, an unset attribute reading as None. *)
Record RuleEntry := mkRuleEntry { entry_attrs : gmap string scalar }.

(** Modelled from the spec: a route has an id, attributes, and owns an
    ordered sequence of rule entries. *)
Record Route := mkRoute {
  route_attrs : gmap string value;
  rule_entries_list : list RuleEntry
}.

Global Instance RuleEntry_eq_dec : EqDecision RuleEntry.
Proof. solve_decision. Defined.

Global Instance Route_eq_dec : EqDecision Route.
Proof. solve_decision. Defined.

Global Instance RuleEntry_inhabited : Inhabited RuleEntry :=
  populate (mkRuleEntry ∅).

Definition entry_getattr (e : RuleEntry) (name : string) : scalar :=
  default SNone (entry_attrs e !! name).

Definition entry_id (e : RuleEntry) : scalar := entry_getattr e "id".

Definition route_getattr (r : Route) (name : string) : value :=
  default (Scalar SNone) (route_attrs r !! name).

Definition route_id (r : Route) : value := route_getattr r "id".

(** ** Exceptions and results *)

Inductive exn :=
  | EntityNotFound (route_id : string)
  | InvalidRouteConfiguration (msg : string)
  | TypeError
  | AttributeError
  | StorageError.

Global Instance exn_eq_dec : EqDecision exn.
Proof. solve_decision. Defined.

Inductive result (A : Type) :=
  | Ok (a : A)
  | Raise (e : exn).
Arguments Ok {A} a.
Arguments Raise {A} e.

Global Instance result_ret : MRet result := λ A a, Ok a.
Global Instance result_bind : MBind result := λ A B k m,
  match m with
  | Ok a => k a
  | Raise e => Raise e
  end.

(** ** External collaborators *)

(** How the Route class exposes [is_outbound]: manager.py reads it as a
    plain attribute in check_route and calls it in get_all_by_type. *)
Inductive member :=
  | Column
  | Method (body : Route → bool).

(** The collaborators the manager consumes.  A builder returns [None] when
    it succeeds and [Some msg] when it raises its error with text [msg]. *)
Class Collaborators := {
  re_compile : string → option string;
  expression_build : scalar → option string;
  build_pipeline : RuleEntry → option string;
  has_operations : RuleEntry → bool;
  is_outbound : member;
  db_accepts : list Route → bool;
  new_id : nat → string
}.

(** ** The storage session

    get_session() hands every call the same session: update commits
    through its own handle the object that get loaded through another.
    [pending] is the unit of work the session's queries see, [committed]
    what the last commit made durable, [deleted] the rule entries marked
    by session.delete and not flushed yet, [next_id] the number of
    identities the store has handed out. *)
Record Session := mkSession {
  committed : list Route;
  pending : list Route;
  deleted : list RuleEntry;
  next_id : nat
}.

Global Instance Session_eq_dec : EqDecision Session.
Proof. solve_decision. Defined.

Definition set_pending (rs : list Route) (s : Session) : Session :=
  mkSession (committed s) rs (deleted s) (next_id s).

(** Operations run in the session and either return or raise; what they
    did to the session before raising stays done. *)
Definition M (A : Type) : Type := Session → result A * Session.

Global Instance M_ret : MRet M := λ A a s, (Ok a, s).
Global Instance M_bind : MBind M := λ A B k m s,
  match m s with
  | (Ok a, s') => k a s'
  | (Raise e, s') => (Raise e, s')
  end.

Definition lift {A} (r : result A) : M A := λ s, (r, s).
Definition raise {A} (e : exn) : M A := λ s, (Raise e, s).

(** [try: m  except Exception: handler; raise] *)
Definition try_except_reraise {A} (m : M A) (handler : M unit) : M A := λ s,
  match m s with
  | (Ok a, s') => (Ok a, s')
  | (Raise e, s') => (Raise e, snd (handler s'))
  end.

Fixpoint mapM {A B} (f : A → M B) (l : list A) : M (list B) :=
  match l with
  | [] => mret []
  | x :: rest => y ← f x; ys ← mapM f rest; mret (y :: ys)
  end.

(** ** The generic field merge *)

(** Modelled from the spec: update_model of satellite/db is outside the
    sources.  It applies a partial data record onto an existing entity,
    leaving out the excluded fields: a field named in the data takes the
    data's value, every other field keeps its own. *)
Definition update_model {V} (attrs data : gmap string V) (exclude : list string)
    : gmap string V :=
  filter (λ kv, kv.1 ∉ exclude) data ∪ attrs.

(** Modelled from the spec: the merge onto a route (line 69), update_model
    being outside the sources.  The owned collection is a relationship, not
    a field: the payload holds dicts under that key, which only the
    reconciliation of [update] turns into entries, so the merge leaves the
    key alone. *)
Definition update_model_route (route : Route) (route_data : gmap string value)
    : Route :=
  mkRoute (update_model (route_attrs route) (delete "rule_entries_list" route_data) [])
          (rule_entries_list route).

Definition update_model_entry (filter : RuleEntry) (filter_data : gmap string scalar)
    (exclude : list string) : RuleEntry :=
  mkRuleEntry (update_model (entry_attrs filter) filter_data exclude).

(** ** Reconciliation of the rule entries (update, lines 75-95)

    The entries of the route are objects shared between the route's list,
    the dict [current_filters] and the list [target_filters]; [heap] holds
    them by address, the first addresses being the positions of the
    route's current list. *)
Record loop_state := mkLoop {
  heap : list RuleEntry;
  target_filters : list nat;
  target_filters_ids : gset scalar
}.

Definition current_filters (rules : list RuleEntry) : gmap scalar nat :=
  foldl (λ m ie, <[entry_id ie.2 := ie.1]> m) ∅ (imap pair rules).

(** [filter_data.get('id')] *)
Definition record_id (filter_data : gmap string scalar) : scalar :=
  default SNone (filter_data !! "id").

Definition loop_body (current : gmap scalar nat) (st : loop_state)
    (filter_data : gmap string scalar) : loop_state :=
  let filter_id := record_id filter_data in
  let filter := if decide (filter_id = SNone) then None else current !! filter_id in
  match filter with
  | Some a =>
      let h := alter (λ e, update_model_entry e filter_data ["id"]) a (heap st) in
      mkLoop h (target_filters st ++ [a])
             (target_filters_ids st ∪ {[ entry_id (h !!! a) ]})
  | None =>
      let e := mkRuleEntry filter_data in
      mkLoop (heap st ++ [e]) (target_filters st ++ [length (heap st)])
             (target_filters_ids st ∪ {[ entry_id e ]})
  end.

Definition reconcile_loop (rules : list RuleEntry)
    (filters_data : list (gmap string scalar)) : loop_state :=
  foldl (loop_body (current_filters rules)) (mkLoop rules [] ∅) filters_data.

(** The entries [session.delete] is called on (lines 91-93). *)
Definition removed_filters (rules : list RuleEntry) (st : loop_state)
    : list RuleEntry :=
  filter (λ e, entry_id e ∉ target_filters_ids st) (take (length rules) (heap st)).

(** The new value of [route.rule_entries_list] (line 95). *)
Definition target_entries (st : loop_state) : list RuleEntry :=
  (λ a, heap st !!! a) <$> target_filters st.

(** [route_data['rule_entries_list'] or []], as the loop iterates it. *)
Definition filters_data_of (v : value) : result (list (gmap string scalar)) :=
  match (if truthy v then v else Records []) with
  | Records l => Ok l
  | Scalar (SStr _) => Raise AttributeError
  | Scalar _ => Raise TypeError
  end.

(** One RuleEntry built from each dict of
    [route_data.get('rule_entries_list', [])] (create, lines 41-44). *)
Definition new_rule_entries (route_data : gmap string value)
    : result (list RuleEntry) :=
  match route_data !! "rule_entries_list" with
  | None => Ok []
  | Some (Records l) => Ok (mkRuleEntry <$> l)
  | Some (Scalar (SStr s)) => if String.eqb s "" then Ok [] else Raise TypeError
  | Some (Scalar _) => Raise TypeError
  end.

Definition new_route (route_data : gmap string value) : result Route :=
  rules ← new_rule_entries route_data;
  mret (mkRoute (delete "rule_entries_list" route_data) rules).

Section Manager.
Context `{Collaborators}.

(** ** Validation cascade *)

(** The directionality of a route, whichever way the class exposes it. *)
Definition outbound_flag (route : Route) : bool :=
  match is_outbound with
  | Column => truthy (route_getattr route "is_outbound")
  | Method body => body route
  end.

(** [route.is_outbound] evaluated as a condition: a bound method is an
    object, hence true. *)
Definition is_outbound_read (route : Route) : bool :=
  match is_outbound with
  | Column => truthy (route_getattr route "is_outbound")
  | Method _ => true
  end.

(** [route.is_outbound()]: calling a plain attribute value is a TypeError. *)
Definition is_outbound_call (route : Route) : result bool :=
  match is_outbound with
  | Column => Raise TypeError
  | Method body => Ok (body route)
  end.

Definition check_expression (fltr : RuleEntry) : result unit :=
  if truthy_scalar (entry_getattr fltr "expression_snapshot") then
    match expression_build (entry_getattr fltr "expression_snapshot") with
    | Some exc => Raise (InvalidRouteConfiguration ("Invalid expression: " +:+ exc))
    | None => Ok tt
    end
  else Ok tt.

Definition check_operations (fltr : RuleEntry) : result unit :=
  if has_operations fltr then
    match build_pipeline fltr with
    | Some exc => Raise (InvalidRouteConfiguration ("Invalid operations: " +:+ exc))
    | None => Ok tt
    end
  else Ok tt.

Definition check_filter (fltr : RuleEntry) : result unit :=
  check_expression fltr ;; check_operations fltr.

Definition check_host (route : Route) : result unit :=
  if is_outbound_read route then
    match route_getattr route "host_endpoint" with
    | Scalar (SStr pattern) =>
        match re_compile pattern with
        | Some exc =>
            Raise (InvalidRouteConfiguration
                     ("Invalid host pattern " +:+ pattern +:+ ": " +:+ exc))
        | None => Ok tt
        end
    | _ => Raise TypeError
    end
  else Ok tt.

Fixpoint check_filters (rules : list RuleEntry) : result unit :=
  match rules with
  | [] => Ok tt
  | rule :: rest => check_filter rule ;; check_filters rest
  end.

Definition check_route (route : Route) : result unit :=
  check_host route ;; check_filters (rule_entries_list route).

(** ** Session primitives *)

(** Modelled from the spec: the column default of the identity, declared
    with the entity classes outside the sources.  On flush the store
    assigns an identity of its own to every row whose id is unset. *)
Definition assign_entry_id (n : nat) (e : RuleEntry) : nat * RuleEntry :=
  if decide (entry_id e = SNone)
  then (S n, mkRuleEntry (<["id" := SStr (new_id n)]> (entry_attrs e)))
  else (n, e).

Fixpoint assign_entry_ids (n : nat) (rules : list RuleEntry)
    : nat * list RuleEntry :=
  match rules with
  | [] => (n, [])
  | e :: rest =>
      let '(n1, e') := assign_entry_id n e in
      let '(n2, rest') := assign_entry_ids n1 rest in
      (n2, e' :: rest')
  end.

Definition assign_route_ids (n : nat) (route : Route) : nat * Route :=
  let '(n1, attrs) :=
    if decide (route_id route = Scalar SNone)
    then (S n, <["id" := Scalar (SStr (new_id n))]> (route_attrs route))
    else (n, route_attrs route) in
  let '(n2, rules) := assign_entry_ids n1 (rule_entries_list route) in
  (n2, mkRoute attrs rules).

Fixpoint assign_ids (n : nat) (routes : list Route) : nat * list Route :=
  match routes with
  | [] => (n, [])
  | route :: rest =>
      let '(n1, route') := assign_route_ids n route in
      let '(n2, rest') := assign_ids n1 rest in
      (n2, route' :: rest')
  end.

(** Writing the unit of work to the store, which accepts or rejects it. *)
Definition flush (s : Session) : option Session :=
  let '(n, routes) := assign_ids (next_id s) (pending s) in
  if db_accepts routes then Some (mkSession (committed s) routes [] n) else None.

Definition session_commit : M unit := λ s,
  match flush s with
  | Some s' => (Ok tt, mkSession (pending s') (pending s') [] (next_id s'))
  | None => (Raise StorageError, s)
  end.

Definition session_rollback : M unit := λ s,
  (Ok tt, mkSession (committed s) (committed s) [] (next_id s)).

(** [session.add(route)]; the result is the address of the object in the
    unit of work. *)
Definition session_add (route : Route) : M nat := λ s,
  (Ok (length (pending s)), set_pending (pending s ++ [route]) s).

Definition session_add_all (routes : list Route) : M unit := λ s,
  (Ok tt, set_pending (pending s ++ routes) s).

Definition session_delete_route (a : nat) : M unit := λ s,
  (Ok tt, set_pending (delete a (pending s)) s).

Definition session_delete_entries (rules : list RuleEntry) : M unit := λ s,
  (Ok tt, mkSession (committed s) (pending s) (deleted s ++ rules) (next_id s)).

(** A mutation of an attached object shows in the unit of work at once. *)
Definition store_object (a : nat) (route : Route) : M unit := λ s,
  (Ok tt, set_pending (<[a := route]> (pending s)) s).

(** The object at address [a] as the session holds it now. *)
Definition session_object (a : nat) (route : Route) : M Route := λ s,
  (Ok (default route (pending s !! a)), s).

Definition query_all : M (list Route) := λ s, (Ok (pending s), s).

(** [session.query(Route).delete()]: the statement runs at once. *)
Definition query_delete : M unit := λ s,
  if db_accepts [] then (Ok tt, set_pending [] s) else (Raise StorageError, s).

(** [with session.begin_nested(): body]: a savepoint, released with a
    flush when the body returns and rolled back to when anything raises. *)
Definition begin_nested {A} (body : M A) : M A := λ s,
  match body s with
  | (Ok a, s1) =>
      match flush s1 with
      | Some s2 => (Ok a, s2)
      | None => (Raise StorageError, s)
      end
  | (Raise e, _) => (Raise e, s)
  end.

(** ** Repository operations *)

(** Lines 22-26: the commit comes first, outside any try. *)
Definition get_all : M (list Route) :=
  session_commit ;; query_all.

Fixpoint filter_by_type (flag : bool) (routes : list Route) : result (list Route) :=
  match routes with
  | [] => Ok []
  | route :: rest =>
      b ← is_outbound_call route;
      rest' ← filter_by_type flag rest;
      mret (if Bool.eqb b flag then route :: rest' else rest')
  end.

(** Lines 29-30: [route.is_outbound() is is_outbound] on every route. *)
Definition get_all_by_type (flag : bool) : M (list Route) :=
  routes ← get_all; lift (filter_by_type flag routes).

(** Lines 33-34.  The result carries the address of the route in the
    session with its current state. *)
Definition get (rid : string) : M (option (nat * Route)) := λ s,
  (Ok (list_find (λ route, route_id route = Scalar (SStr rid)) (pending s)), s).

(** Lines 37-59: construction, validation, and only then the session. *)
Definition create (route_data : gmap string value) (store : bool) : M Route :=
  route ← lift (new_route route_data);
  lift (check_route route) ;;
  if store then
    a ← try_except_reraise (a ← session_add route; session_commit ;; mret a)
                           session_rollback;
    session_object a route
  else mret route.

(** Lines 75-95 of update, run when the payload names the key: the loop,
    the deletions, and the assignment of the new list to the route. *)
Definition reconcile (a : nat) (route : Route) (v : value) : M Route :=
  filters_data ← lift (filters_data_of v);
  let st := reconcile_loop (rule_entries_list route) filters_data in
  session_delete_entries (removed_filters (rule_entries_list route) st) ;;
  let route' := mkRoute (route_attrs route) (target_entries st) in
  store_object a route' ;; mret route'.

(** Lines 62-105.  check_route (line 97) stands before the try of lines
    99-103, so the rollback covers the commit only. *)
Definition update (rid : string) (route_data : gmap string value) : M Route :=
  found ← get rid;
  match found with
  | None => create (<["id" := Scalar (SStr rid)]> route_data) true
  | Some (a, route) =>
      let route := update_model_route route route_data in
      store_object a route ;;
      route ← match route_data !! "rule_entries_list" with
              | Some v => reconcile a route v
              | None => mret route
              end;
      lift (check_route route) ;;
      try_except_reraise session_commit session_rollback ;;
      session_object a route
  end.

(** Lines 108-114. *)
Definition delete (rid : string) : M unit :=
  found ← get rid;
  match found with
  | None => raise (EntityNotFound rid)
  | Some (a, _) => session_delete_route a ;; session_commit
  end.

(** Lines 117-125.  The routes returned are the objects just added, which
    after the swap are the whole unit of work; replace does not commit. *)
Definition replace (routes_data : list (gmap string value)) : M (list Route) :=
  routes ← mapM (λ route_data, create route_data false) routes_data;
  begin_nested (query_delete ;; session_add_all routes) ;;
  query_all.

End Manager.

(** ** Derived notions used to state the properties *)

(** Every row of the route and of its rule entries has its identity. *)
Definition identified (route : Route) : Prop :=
  route_id route ≠ Scalar SNone ∧
  Forall (λ e, entry_id e ≠ SNone) (rule_entries_list route).

(** Nothing is waiting to be written: the state a commit or a rollback
    leaves behind. *)
Definition settled (s : Session) : Prop :=
  pending s = committed s ∧ deleted s = [] ∧ Forall identified (committed s).

Definition never_missing {A} (r : result A) : Prop :=
  ∀ x, r ≠ Raise (EntityNotFound x).

(** What the loop of the reconciliation maintains: the objects of the
    route's list keep their addresses and their ids, one of them differs
    from what it was only if its id went into [target_filters_ids], the
    targets are addresses of the heap, and [target_filters_ids] holds the
    ids of the targets. *)
Record loop_inv (rules : list RuleEntry) (st : loop_state) : Prop := mkLoopInv {
  inv_length : length rules ≤ length (heap st);
  inv_rules : ∀ a e, rules !! a = Some e →
    ∃ e', heap st !! a = Some e' ∧ entry_id e' = entry_id e ∧
          (e' = e ∨ entry_id e ∈ target_filters_ids st);
  inv_target : Forall (λ a, a < length (heap st)) (target_filters st);
  inv_target_ids :
    target_filters_ids st = list_to_set (entry_id <$> target_entries st)
}.

(** The merge of an incoming record into a matched entry (line 85). *)
Definition merge_filter (filter_data : gmap string scalar) (e : RuleEntry)
    : RuleEntry :=
  update_model_entry e filter_data ["id"].

(** *** The reconciliation as the contract words it

    The entry of the current collection that an incoming id matches: none
    for a record without id, the last one should several entries carry the
    id. *)
Definition matching_entry (rules : list RuleEntry) (id : scalar)
    : option RuleEntry :=
  if decide (id = SNone) then None
  else last (filter (λ e, entry_id e = id) rules).

(** An existing entry after the merge of the incoming records that carry
    its id, in their order. *)
Definition merged_entry (filters_data : list (gmap string scalar))
    (e : RuleEntry) : RuleEntry :=
  foldl (λ merged d, merge_filter d merged) e
        (filter (λ d, record_id d = entry_id e) filters_data).

(** The new collection: for each incoming record, in the order given, the
    existing entry its id matches, merged, or else a brand-new entry made
    of the record's fields. *)
Definition reconciled_entries (rules : list RuleEntry)
    (filters_data : list (gmap string scalar)) : list RuleEntry :=
  (λ d, match matching_entry rules (record_id d) with
        | Some e => merged_entry filters_data e
        | None => mkRuleEntry d
        end) <$> filters_data.

(** The ids of all the rule entries of a list of routes. *)
Definition all_entry_ids (routes : list Route) : list scalar :=
  routes ≫= (λ r, entry_id <$> rule_entries_list r).

(** How many entries of a list have no id yet. *)
Definition count_unset (rules : list RuleEntry) : nat :=
  length (filter (λ e, entry_id e = SNone) rules).

(** The number of identities handed out before the entries of a route are
    reached, the flush of the route having started at [m]. *)
Definition entries_start (m : nat) (route : Route) : nat :=
  if decide (route_id route = Scalar SNone) then S m else m.

Section Steps.
Context `{Collaborators}.

(** None of the identities the store hands out from the [n]-th on is among
    the ids. *)
Definition unused_from (n : nat) (ids : list scalar) : Prop :=
  ∀ k, n ≤ k → SStr (new_id k) ∉ ids.

(** The number of identities handed out when the flush of a list of routes,
    started at [n], reaches the route of address [b]. *)
Definition flush_start (n : nat) (routes : list Route) (b : nat) : nat :=
  (assign_ids n (take b routes)).1.

(** create with [store=False]: construction and validation only. *)
Definition validate (route_data : gmap string value) : result Route :=
  route ← new_route route_data; check_route route ;; mret route.

(** The routes of a replacement are validated one by one, in order, before
    the session is touched. *)
Fixpoint validate_all (routes_data : list (gmap string value)) : result (list Route) :=
  match routes_data with
  | [] => Ok []
  | d :: rest => route ← validate d; routes ← validate_all rest; mret (route :: routes)
  end.

(** *** The steps of update on an existing route *)

Definition rolled_back (s : Session) : Session :=
  mkSession (committed s) (committed s) [] (next_id s).

Definition made_durable (s : Session) : Session :=
  mkSession (pending s) (pending s) [] (next_id s).

(** Lines 97-105: validation, commit or rollback, and the result. *)
Definition finish (a : nat) (route : Route) : M Route :=
  lift (check_route route) ;;
  try_except_reraise session_commit session_rollback ;;
  session_object a route.

(** The session after the field merge of line 69. *)
Definition merged (a : nat) (route : Route) (route_data : gmap string value)
    (s : Session) : Session :=
  set_pending (<[a := update_model_route route route_data]> (pending s)) s.

(** The session after the reconciliation of lines 74-95. *)
Definition reconciled (a : nat) (route : Route) (route_data : gmap string value)
    (l : list (gmap string scalar)) (s : Session) : Session :=
  let st := reconcile_loop (rule_entries_list route) l in
  mkSession (committed s)
    (<[a := mkRoute (route_attrs (update_model_route route route_data))
                    (target_entries st)]> (pending s))
    (deleted s ++ removed_filters (rule_entries_list route) st)
    (next_id s).

End Steps.

(** ** Reference collaborators

    A concrete set of collaborators on which the operations can be run: a
    pattern compiles when its parentheses balance, an expression snapshot
    is any string but "malformed", the store enforces the uniqueness of
    route ids, and identities are numbered.  The directionality member is
    left open. *)

Fixpoint paren_depth (depth : nat) (p : string) : option nat :=
  match p with
  | EmptyString => Some depth
  | String c rest =>
      if Ascii.eqb c "("%char then paren_depth (S depth) rest
      else if Ascii.eqb c ")"%char then
        match depth with
        | O => None
        | S d => paren_depth d rest
        end
      else paren_depth depth rest
  end.

Definition reference_collaborators (m : member) : Collaborators := {|
  re_compile := λ p,
    match paren_depth 0 p with
    | Some O => None
    | Some (S _) => Some "missing ), unterminated subpattern"
    | None => Some "unbalanced parenthesis"
    end;
  expression_build := λ v,
    if decide (v = SStr "malformed") then Some "unknown operator" else None;
  build_pipeline := λ _, None;
  has_operations := λ e, truthy_scalar (entry_getattr e "operations");
  is_outbound := m;
  db_accepts := λ routes, bool_decide (NoDup (route_id <$> routes));
  new_id := λ n, "generated-" +:+ pretty n
|}.

(** [is_outbound] as a method, the way get_all_by_type calls it: a route is
    outbound when it overrides no destination. *)
Definition outbound_method : member :=
  Method (λ route,
    bool_decide (route_getattr route "destination_override_endpoint" = Scalar (SStr "*"))).

Definition sample_entry (id x : string) : RuleEntry :=
  mkRuleEntry {[ "id" := SStr id; "x" := SStr x ]}.

Definition sample_route : Route :=
  mkRoute {[ "id" := Scalar (SStr "r1");
             "destination_override_endpoint" := Scalar (SStr "*");
             "host_endpoint" := Scalar (SStr "(.*)\.example\.com") ]}
          [sample_entry "A" "1"; sample_entry "B" "2"].

Definition sample_session : Session :=
  mkSession [sample_route] [sample_route] [] 0.

(** A route payload whose host pattern has an unbalanced parenthesis. *)
Definition unparsable_route_data : gmap string value :=
  {[ "id" := Scalar (SStr "r2");
     "destination_override_endpoint" := Scalar (SStr "*");
     "host_endpoint" := Scalar (SStr "(") ]}.

Definition inbound_route_data : gmap string value :=
  {[ "id" := Scalar (SStr "r3");
     "destination_override_endpoint" := Scalar (SStr "https://upstream");
     "host_endpoint" := Scalar (SStr "echo\.example\.com") ]}.

(** An inbound route whose host pattern does not compile. *)
Definition inbound_unparsable_route : Route :=
  mkRoute {[ "id" := Scalar (SStr "r4");
             "destination_override_endpoint" := Scalar (SStr "https://upstream");
             "host_endpoint" := Scalar (SStr "(") ]} [].

(** An update payload for the sample route that fails validation: it sets
    an unparsable host pattern and an empty list of rule entries. *)
Definition invalid_update_data : gmap string value :=
  {[ "host_endpoint" := Scalar (SStr "(");
     "rule_entries_list" := Records [] ]}.

(** The sample route as that payload leaves it in memory. *)
Definition invalid_sample_route : Route :=
  mkRoute (<["host_endpoint" := Scalar (SStr "(")]> (route_attrs sample_route)) [].

(** The reference collaborators with a store that rejects every write, as
    when the connection is lost. *)
Definition offline_collaborators (m : member) : Collaborators := {|
  re_compile := @re_compile (reference_collaborators m);
  expression_build := @expression_build (reference_collaborators m);
  build_pipeline := @build_pipeline (reference_collaborators m);
  has_operations := @has_operations (reference_collaborators m);
  is_outbound := m;
  db_accepts := λ _, false;
  new_id := @new_id (reference_collaborators m)
|}.

(** A rule-entry record whose expression snapshot the builder rejects. *)
Definition malformed_rule_data : gmap string scalar :=
  {[ "expression_snapshot" := SStr "malformed"; "operations" := SStr "[]" ]}.

(** The sample route with a malformed rule between its two entries. *)
Definition malformed_rule_route : Route :=
  mkRoute (route_attrs sample_route)
          [sample_entry "A" "1"; mkRuleEntry malformed_rule_data;
           sample_entry "B" "2"].

(** A payload for a new route with the same rules. *)
Definition malformed_rule_payload : gmap string value :=
  <["rule_entries_list" :=
      Records [entry_attrs (sample_entry "A" "1"); malformed_rule_data;
               entry_attrs (sample_entry "B" "2")] ]>
    inbound_route_data.

Definition inbound_route : Route := mkRoute inbound_route_data [].

(** A settled session with an outbound and an inbound route. *)
Definition two_route_session : Session :=
  mkSession [sample_route; inbound_route] [sample_route; inbound_route] [] 0.

(** A payload that changes the host pattern of a route and nothing else. *)
Definition host_update_data : gmap string value :=
  {[ "host_endpoint" := Scalar (SStr "(.*)\.example\.org") ]}.

(** The sample route with that host pattern. *)
Definition host_updated_route : Route :=
  mkRoute (<["host_endpoint" := Scalar (SStr "(.*)\.example\.org")]>
             (route_attrs sample_route))
          (rule_entries_list sample_route).

(** The error kinds the validation cascade can raise. *)
Definition validation_error (e : exn) : Prop :=
  e = TypeError ∨ ∃ msg, e = InvalidRouteConfiguration msg.

(** * Properties *)

Section Properties.
Context `{Collaborators}.

(** *** Identity assignment *)

Lemma assign_entry_ids_identified n rules :
  Forall (λ e, entry_id e ≠ SNone) rules → assign_entry_ids n rules = (n, rules).
Proof.
  induction 1 as [|e rest He _ IH]; simpl; [done|].
  unfold assign_entry_id. rewrite decide_False by done. by rewrite IH.
Qed.

Lemma assign_route_ids_identified n route :
  identified route → assign_route_ids n route = (n, route).
Proof.
  intros [Hid Hrules]. unfold assign_route_ids.
  rewrite decide_False by done.
  rewrite assign_entry_ids_identified by done. by destruct route.
Qed.

Lemma assign_ids_identified n routes :
  Forall identified routes → assign_ids n routes = (n, routes).
Proof.
  induction 1 as [|r rest Hr _ IH]; simpl; [done|].
  by rewrite assign_route_ids_identified, IH.
Qed.

Lemma assign_ids_app n l1 l2 :
  assign_ids n (l1 ++ l2) =
    ((assign_ids (assign_ids n l1).1 l2).1,
     (assign_ids n l1).2 ++ (assign_ids (assign_ids n l1).1 l2).2).
Proof.
  revert n. induction l1 as [|r l1 IH]; intros n; simpl.
  - by destruct (assign_ids n l2).
  - destruct (assign_route_ids n r) as [n1 r'].
    rewrite IH. by destruct (assign_ids n1 l1) as [n2 l1'].
Qed.

Lemma assign_entry_id_identified n e : entry_id (assign_entry_id n e).2 ≠ SNone.
Proof.
  unfold assign_entry_id. case_decide; simpl; [|done].
  unfold entry_id, entry_getattr; simpl. by rewrite lookup_insert_eq.
Qed.

Lemma assign_entry_ids_all_identified n rules :
  Forall (λ e, entry_id e ≠ SNone) (assign_entry_ids n rules).2.
Proof.
  revert n. induction rules as [|e rest IH]; intros n; simpl; [done|].
  pose proof (assign_entry_id_identified n e) as He.
  destruct (assign_entry_id n e) as [n1 e'].
  specialize (IH n1). destruct (assign_entry_ids n1 rest) as [n2 rest'].
  simpl in *. by constructor.
Qed.

Lemma assign_route_ids_rules n route :
  ∃ m, n ≤ m ∧
    rule_entries_list (assign_route_ids n route).2 =
      (assign_entry_ids m (rule_entries_list route)).2.
Proof.
  unfold assign_route_ids. case_decide.
  - exists (S n). split; [lia|].
    by destruct (assign_entry_ids (S n) (rule_entries_list route)).
  - exists n. split; [lia|].
    by destruct (assign_entry_ids n (rule_entries_list route)).
Qed.

Lemma assign_route_ids_id n route :
  route_id route ≠ Scalar SNone →
  route_attrs (assign_route_ids n route).2 = route_attrs route.
Proof.
  intros Hid. unfold assign_route_ids. rewrite decide_False by done.
  by destruct (assign_entry_ids n (rule_entries_list route)).
Qed.

Lemma assign_route_ids_all_identified n route :
  identified (assign_route_ids n route).2.
Proof.
  split.
  - unfold assign_route_ids. case_decide as Hid.
    + destruct (assign_entry_ids (S n) (rule_entries_list route)); simpl.
      unfold route_id, route_getattr; simpl. by rewrite lookup_insert_eq.
    + by destruct (assign_entry_ids n (rule_entries_list route)).
  - destruct (assign_route_ids_rules n route) as (m & _ & ->).
    apply assign_entry_ids_all_identified.
Qed.

Lemma assign_ids_all_identified n routes :
  Forall identified (assign_ids n routes).2.
Proof.
  revert n. induction routes as [|r rest IH]; intros n; simpl; [done|].
  pose proof (assign_route_ids_all_identified n r) as Hr.
  destruct (assign_route_ids n r) as [n1 r'].
  specialize (IH n1). destruct (assign_ids n1 rest) as [n2 rest'].
  simpl in *. by constructor.
Qed.

Lemma assign_ids_length n routes :
  length (assign_ids n routes).2 = length routes.
Proof.
  revert n. induction routes as [|r rest IH]; intros n; simpl; [done|].
  destruct (assign_route_ids n r) as [n1 r'].
  specialize (IH n1). destruct (assign_ids n1 rest) as [n2 rest'].
  simpl in *. by rewrite IH.
Qed.

Lemma assign_ids_lookup n routes a route :
  routes !! a = Some route →
  ∃ m, (assign_ids n routes).2 !! a = Some (assign_route_ids m route).2.
Proof.
  revert n a. induction routes as [|r rest IH]; intros n a Ha; [done|].
  simpl. destruct a as [|a]; simpl in Ha.
  - injection Ha as ->. exists n.
    destruct (assign_route_ids n route) as [n1 r'].
    by destruct (assign_ids n1 rest).
  - destruct (assign_route_ids n r) as [n1 r'].
    destruct (IH n1 a Ha) as [m Hm]. exists m.
    by destruct (assign_ids n1 rest).
Qed.

(** *** Which exceptions the operations raise *)

Lemma check_filters_never_missing rules : never_missing (check_filters rules).
Proof.
  induction rules as [|e rest IH]; intros x; simpl; [done|].
  unfold check_filter, check_expression, check_operations, mbind, result_bind.
  repeat case_match; simplify_eq; try done; apply IH.
Qed.

Lemma check_route_never_missing route : never_missing (check_route route).
Proof.
  intros x. unfold check_route, check_host, mbind, result_bind.
  repeat case_match; simplify_eq; try done; apply check_filters_never_missing.
Qed.

Lemma new_route_never_missing route_data : never_missing (new_route route_data).
Proof.
  intros x. unfold new_route, new_rule_entries, mbind, result_bind, mret, result_ret.
  repeat case_match; simplify_eq; done.
Qed.

Lemma validate_never_missing route_data : never_missing (validate route_data).
Proof.
  intros x. unfold validate, mbind, result_bind, mret, result_ret.
  pose proof (new_route_never_missing route_data x).
  destruct (new_route route_data) as [route|e]; [|done].
  pose proof (check_route_never_missing route x).
  destruct (check_route route); congruence.
Qed.

(** create without storing is [validate] and leaves the session alone. *)
Lemma create_unstored route_data s :
  create route_data false s = (validate route_data, s).
Proof.
  unfold create, validate, lift, mbind, M_bind, result_bind, mret, M_ret, result_ret.
  destruct (new_route route_data) as [route|e]; [|done].
  by destruct (check_route route) as [[]|e].
Qed.

Lemma session_commit_cases s :
  (session_commit s = (Raise StorageError, s) ∧ flush s = None) ∨
  (∃ n routes, session_commit s = (Ok tt, mkSession routes routes [] n) ∧
     assign_ids (next_id s) (pending s) = (n, routes) ∧
     db_accepts routes = true ∧
     flush s = Some (mkSession (committed s) routes [] n)).
Proof.
  unfold session_commit, flush.
  destruct (assign_ids (next_id s) (pending s)) as [n routes].
  destruct (db_accepts routes) eqn:Hacc; [right|left]; eauto 10.
Qed.

Lemma create_never_missing route_data store s :
  never_missing (create route_data store s).1.
Proof.
  intros x. destruct store; [|rewrite create_unstored; apply validate_never_missing].
  unfold create, lift, mbind, M_bind.
  pose proof (new_route_never_missing route_data x).
  destruct (new_route route_data) as [route|e]; [|done].
  pose proof (check_route_never_missing route x).
  destruct (check_route route) as [[]|e]; [|simpl; congruence].
  unfold try_except_reraise, session_add, mbind, M_bind.
  destruct (session_commit_cases (set_pending (pending s ++ [route]) s))
    as [[-> _]|(n & routes & -> & _)]; done.
Qed.

Lemma finish_cases a route s :
  match check_route route with
  | Raise e => finish a route s = (Raise e, s)
  | Ok _ =>
      match flush s with
      | None => finish a route s = (Raise StorageError, rolled_back s)
      | Some s2 =>
          finish a route s =
            (Ok (default route (pending s2 !! a)), made_durable s2)
      end
  end.
Proof.
  unfold finish, lift, try_except_reraise, session_commit, session_rollback,
    session_object, mbind, M_bind.
  destruct (check_route route) as [[]|e]; [|done].
  by destruct (flush s) as [s2|].
Qed.

Lemma get_found rid s a route :
  get rid s = (Ok (Some (a, route)), s) →
  list_find (λ r, route_id r = Scalar (SStr rid)) (pending s) = Some (a, route).
Proof. unfold get. congruence. Qed.

Lemma get_found_lookup rid s a route :
  get rid s = (Ok (Some (a, route)), s) →
  pending s !! a = Some route ∧ route_id route = Scalar (SStr rid).
Proof. intros Hget%get_found%list_find_Some. tauto. Qed.

Lemma update_found rid route_data s a route :
  get rid s = (Ok (Some (a, route)), s) →
  update rid route_data s =
    match route_data !! "rule_entries_list" with
    | None => finish a (update_model_route route route_data)
                     (merged a route route_data s)
    | Some v =>
        match filters_data_of v with
        | Raise e => (Raise e, merged a route route_data s)
        | Ok l =>
            finish a
              (mkRoute (route_attrs (update_model_route route route_data))
                       (target_entries (reconcile_loop (rule_entries_list route) l)))
              (reconciled a route route_data l s)
        end
    end.
Proof.
  intros Hget%get_found. unfold update, get.
  unfold mbind at 1. unfold M_bind at 1. rewrite Hget.
  unfold mbind at 1. unfold M_bind at 1. unfold store_object at 1.
  fold (merged a route route_data s).
  destruct (route_data !! "rule_entries_list") as [v|].
  - unfold mbind at 1. unfold M_bind at 1. unfold reconcile.
    unfold mbind at 1. unfold M_bind at 1. unfold lift at 1.
    destruct (filters_data_of v) as [l|e]; [|done].
    unfold mbind at 1. unfold M_bind at 1. unfold session_delete_entries at 1.
    unfold mbind at 1. unfold M_bind at 1. unfold store_object at 1.
    unfold mret at 1. unfold M_ret at 1. unfold set_pending, merged; simpl.
    rewrite list_insert_insert_eq. reflexivity.
  - reflexivity.
Qed.

Lemma get_missing rid s :
  get rid s = (Ok None, s) →
  list_find (λ r, route_id r = Scalar (SStr rid)) (pending s) = None.
Proof. unfold get. congruence. Qed.

Lemma update_missing rid route_data s :
  get rid s = (Ok None, s) →
  update rid route_data s = create (<["id" := Scalar (SStr rid)]> route_data) true s.
Proof.
  intros Hget%get_missing. unfold update, get.
  unfold mbind at 1. unfold M_bind at 1. by rewrite Hget.
Qed.

Lemma get_cases rid s :
  get rid s = (Ok None, s) ∨ ∃ a route, get rid s = (Ok (Some (a, route)), s).
Proof.
  unfold get. destruct (list_find _ (pending s)) as [[a route]|]; eauto.
Qed.

Lemma finish_never_missing a route s : never_missing (finish a route s).1.
Proof.
  intros x. pose proof (finish_cases a route s) as Hf.
  pose proof (check_route_never_missing route x).
  destruct (check_route route) as [[]|e].
  - destruct (flush s); by rewrite Hf.
  - rewrite Hf. simpl. congruence.
Qed.

Lemma update_never_missing rid route_data s :
  never_missing (update rid route_data s).1.
Proof.
  intros x. destruct (get_cases rid s) as [Hget|(a & route & Hget)].
  - rewrite (update_missing _ _ _ Hget). apply create_never_missing.
  - rewrite (update_found _ _ _ _ _ Hget).
    destruct (route_data !! "rule_entries_list") as [v|];
      [|apply finish_never_missing].
    unfold filters_data_of.
    destruct (if truthy v then v else Records []) as [[]|l]; try done.
    apply finish_never_missing.
Qed.

Lemma mapM_create_unstored routes_data s :
  mapM (λ route_data, create route_data false) routes_data s =
    (validate_all routes_data, s).
Proof.
  induction routes_data as [|d rest IH]; simpl; [done|].
  unfold mbind at 1. unfold M_bind at 1. rewrite create_unstored.
  unfold mbind at 2. unfold result_bind at 1.
  destruct (validate d) as [route|e]; [|done].
  unfold mbind at 1. unfold M_bind at 1. rewrite IH.
  unfold mbind, result_bind. by destruct (validate_all rest).
Qed.

Lemma validate_all_never_missing routes_data : never_missing (validate_all routes_data).
Proof.
  induction routes_data as [|d rest IH]; intros x; simpl; [done|].
  unfold mbind, result_bind, mret, result_ret.
  pose proof (validate_never_missing d x).
  destruct (validate d); [|congruence].
  specialize (IH x). destruct (validate_all rest); congruence.
Qed.

(** What replace does, case by case. *)
Lemma replace_cases routes_data s :
  match validate_all routes_data with
  | Raise e => replace routes_data s = (Raise e, s)
  | Ok routes =>
      if db_accepts [] && db_accepts (assign_ids (next_id s) routes).2
      then replace routes_data s =
             (Ok (assign_ids (next_id s) routes).2,
              mkSession (committed s) (assign_ids (next_id s) routes).2 []
                        (assign_ids (next_id s) routes).1)
      else replace routes_data s = (Raise StorageError, s)
  end.
Proof.
  assert (replace routes_data s =
            match validate_all routes_data with
            | Ok routes =>
                (begin_nested (query_delete ;; session_add_all routes) ;;
                 query_all) s
            | Raise e => (Raise e, s)
            end) as ->.
  { unfold replace. unfold mbind at 1. unfold M_bind at 1.
    by rewrite mapM_create_unstored. }
  destruct (validate_all routes_data) as [routes|e]; [|done].
  unfold begin_nested, query_delete, session_add_all, query_all, flush,
    mbind, M_bind.
  destruct (db_accepts []); simpl; [|done].
  destruct (assign_ids (next_id s) routes) as [n routes'].
  simpl. by destruct (db_accepts routes').
Qed.

Lemma validate_Ok route_data route :
  validate route_data = Ok route →
  new_route route_data = Ok route ∧ check_route route = Ok tt.
Proof.
  unfold validate, mbind, result_bind, mret, result_ret.
  destruct (new_route route_data) as [r|]; [|done].
  destruct (check_route r) as [[]|] eqn:Hcheck; [|done].
  by intros [= <-].
Qed.

Lemma validate_all_Raise routes_data d e :
  d ∈ routes_data → validate d = Raise e →
  ∃ d' e', d' ∈ routes_data ∧ validate d' = Raise e' ∧
           validate_all routes_data = Raise e'.
Proof.
  induction routes_data as [|d0 rest IH]; [by intros ?%elem_of_nil|].
  intros Hin Hd. simpl. unfold mbind, result_bind.
  destruct (validate d0) as [r0|e0] eqn:Hd0.
  - apply elem_of_cons in Hin as [->|Hin]; [congruence|].
    destruct (IH Hin Hd) as (d' & e' & Hin' & Hd' & ->).
    exists d', e'. split_and!; [by apply elem_of_cons; right|done|done].
  - exists d0, e0. split_and!; [by apply elem_of_cons; left|done|done].
Qed.

Lemma validate_all_length routes_data routes :
  validate_all routes_data = Ok routes → length routes = length routes_data.
Proof.
  revert routes. induction routes_data as [|d rest IH]; intros routes; simpl.
  - by intros [= <-].
  - unfold mbind, result_bind, mret, result_ret.
    destruct (validate d); [|done].
    destruct (validate_all rest) as [rs|]; [|done].
    intros [= <-]. simpl. by rewrite (IH rs).
Qed.

(** *** Bulk replacement *)

(** C1: when the validation of any input route of replace fails, replace
    raises that error and the session is exactly as it was, so no route of
    the prior set is deleted and none is inserted; whenever replace raises,
    be it in the validation or inside the swap, the session is exactly as
    it was; and when it returns, the unit of work holds the new routes and
    nothing else, one per input route. *)
Theorem replace_all_or_nothing routes_data s :
  (∀ d e, d ∈ routes_data → validate d = Raise e →
     ∃ d' e', d' ∈ routes_data ∧ validate d' = Raise e' ∧
              replace routes_data s = (Raise e', s)) ∧
  (∀ e s', replace routes_data s = (Raise e, s') → s' = s) ∧
  (∀ routes s', replace routes_data s = (Ok routes, s') →
     committed s' = committed s ∧ pending s' = routes ∧ deleted s' = [] ∧
     length routes = length routes_data).
Proof.
  pose proof (replace_cases routes_data s) as Hcases.
  split_and!.
  - intros d e Hin Hd.
    destruct (validate_all_Raise _ _ _ Hin Hd) as (d' & e' & Hin' & Hd' & Hall).
    rewrite Hall in Hcases. eauto 10.
  - intros e s' Hr.
    destruct (validate_all routes_data) as [routes|e0]; [|congruence].
    destruct (db_accepts [] && db_accepts _); congruence.
  - intros routes s' Hr.
    destruct (validate_all routes_data) as [routes0|e0] eqn:Hall; [|congruence].
    destruct (db_accepts [] && db_accepts _); [|congruence].
    rewrite Hcases in Hr. injection Hr as <- <-. simpl.
    by rewrite assign_ids_length, (validate_all_length _ _ Hall).
Qed.

End Properties.

(** A failure inside the swap: the store rejects two routes with one id,
    and the routes the swap had deleted are back. *)
Example replace_duplicate_ids :
  @replace (reference_collaborators outbound_method)
    [inbound_route_data; inbound_route_data] sample_session
  = (Raise StorageError, sample_session).
Proof. vm_compute. reflexivity. Qed.

Example replace_one_route :
  ∃ inbound,
    @replace (reference_collaborators outbound_method)
      [inbound_route_data] sample_session
    = (Ok [inbound], mkSession [sample_route] [inbound] [] 0) ∧
    route_attrs inbound = inbound_route_data.
Proof. eexists. split; vm_compute; reflexivity. Qed.

Lemma replace_all_or_nothing_witness :
  ∃ d' e',
    d' ∈ [inbound_route_data; unparsable_route_data] ∧
    @validate (reference_collaborators outbound_method) d' = Raise e' ∧
    @replace (reference_collaborators outbound_method)
      [inbound_route_data; unparsable_route_data] sample_session
    = (Raise e', sample_session).
Proof.
  destruct (@replace_all_or_nothing (reference_collaborators outbound_method)
              [inbound_route_data; unparsable_route_data] sample_session)
    as [Hvalidation _].
  apply (Hvalidation unparsable_route_data
           (InvalidRouteConfiguration
              "Invalid host pattern (: missing ), unterminated subpattern")).
  - apply list_elem_of_further, list_elem_of_here.
  - vm_compute. reflexivity.
Defined.

Section Lookup.
Context `{Collaborators}.

(** *** Reading and deleting *)

Lemma get_all_never_missing s : never_missing (get_all s).1.
Proof.
  intros x. unfold get_all, query_all, mbind, M_bind.
  by destruct (session_commit_cases s) as [[-> _]|(n & routes & -> & _)].
Qed.

Lemma filter_by_type_never_missing flag routes :
  never_missing (filter_by_type flag routes).
Proof.
  induction routes as [|r rest IH]; intros x; simpl; [done|].
  unfold is_outbound_call, mbind, result_bind, mret, result_ret.
  destruct is_outbound; [done|].
  specialize (IH x). destruct (filter_by_type flag rest); congruence.
Qed.

Lemma get_all_by_type_never_missing flag s :
  never_missing (get_all_by_type flag s).1.
Proof.
  intros x. unfold get_all_by_type, lift. unfold mbind at 1. unfold M_bind at 1.
  pose proof (get_all_never_missing s x).
  destruct (get_all s) as [[routes|e] s']; simpl in *; [|congruence].
  apply filter_by_type_never_missing.
Qed.

Lemma replace_never_missing routes_data s :
  never_missing (replace routes_data s).1.
Proof.
  intros x. pose proof (replace_cases routes_data s) as Hcases.
  pose proof (validate_all_never_missing routes_data x).
  destruct (validate_all routes_data) as [routes|e].
  - destruct (db_accepts [] && db_accepts _); by rewrite Hcases.
  - rewrite Hcases. simpl. congruence.
Qed.

(** C8: delete of an id that no route has raises EntityNotFound and leaves
    the session, hence the store, as it was; delete of an existing id
    removes that route, whose row carries its rule entries, from the store
    and commits; get never raises: it returns the absent result when no
    route has the id; and neither get, get_all, get_all_by_type, create,
    update nor replace ever raises EntityNotFound. *)
Theorem delete_contract rid s :
  (get rid s = (Ok None, s) →
     delete rid s = (Raise (EntityNotFound rid), s)) ∧
  (∀ a route, get rid s = (Ok (Some (a, route)), s) →
     Forall identified (pending s) →
     db_accepts (base.delete a (pending s)) = true →
     delete rid s =
       (Ok tt, mkSession (base.delete a (pending s)) (base.delete a (pending s))
                         [] (next_id s)) ∧
     base.delete a (pending s) = take a (pending s) ++ drop (S a) (pending s) ∧
     length (base.delete a (pending s)) + 1 = length (pending s)) ∧
  ((∃ found, get rid s = (Ok found, s)) ∧
   (Forall (λ route, route_id route ≠ Scalar (SStr rid)) (pending s) →
      get rid s = (Ok None, s))) ∧
  (never_missing (get rid s).1 ∧ never_missing (get_all s).1 ∧
   (∀ flag, never_missing (get_all_by_type flag s).1) ∧
   (∀ route_data store, never_missing (create route_data store s).1) ∧
   (∀ route_data, never_missing (update rid route_data s).1) ∧
   (∀ routes_data, never_missing (replace routes_data s).1)).
Proof.
  split_and!.
  - intros Hget%get_missing. unfold delete, get, raise.
    unfold mbind, M_bind. by rewrite Hget.
  - intros a route Hget Hident Hacc.
    pose proof (get_found_lookup _ _ _ _ Hget) as [Ha _].
    apply get_found in Hget. split_and!.
    + unfold delete, get. unfold mbind at 1. unfold M_bind at 1. rewrite Hget.
      unfold session_delete_route, session_commit, flush, mbind, M_bind,
        set_pending; simpl.
      rewrite assign_ids_identified by by apply Forall_delete.
      by rewrite Hacc.
    + by rewrite delete_take_drop.
    + rewrite length_delete by eauto. apply lookup_lt_Some in Ha. lia.
  - by eexists.
  - intros Hnone. unfold get. by rewrite (proj2 (list_find_None _ _) Hnone).
  - by intros x.
  - apply get_all_never_missing.
  - intros flag. apply get_all_by_type_never_missing.
  - intros. apply create_never_missing.
  - intros. apply update_never_missing.
  - intros. apply replace_never_missing.
Qed.

End Lookup.

Lemma delete_contract_witness :
  @delete (reference_collaborators outbound_method) "r9" sample_session
    = (Raise (EntityNotFound "r9"), sample_session) ∧
  @delete (reference_collaborators outbound_method) "r1" sample_session
    = (Ok tt, mkSession [] [] [] 0).
Proof.
  destruct (@delete_contract (reference_collaborators outbound_method)
              "r9" sample_session) as [Hmissing _].
  destruct (@delete_contract (reference_collaborators outbound_method)
              "r1" sample_session) as (_ & Hfound & _).
  split.
  - apply Hmissing. vm_compute. reflexivity.
  - apply (Hfound 0 sample_route).
    + vm_compute. reflexivity.
    + repeat constructor; vm_compute; discriminate.
    + vm_compute. reflexivity.
Defined.

Section Upsert.
Context `{Collaborators}.

(** *** Update of an id that no route has *)

Lemma new_route_id rid route_data route :
  new_route (<["id" := Scalar (SStr rid)]> route_data) = Ok route →
  route_id route = Scalar (SStr rid).
Proof.
  unfold new_route, mbind, result_bind, mret, result_ret.
  destruct (new_rule_entries _) as [rules|]; [|done].
  intros [= <-]. unfold route_id, route_getattr; simpl.
  by rewrite lookup_delete_ne, lookup_insert_eq.
Qed.

Lemma create_stored route_data s route :
  validate route_data = Ok route →
  create route_data true s =
    match flush (set_pending (pending s ++ [route]) s) with
    | Some s2 =>
        (Ok (default route (pending s2 !! length (pending s))), made_durable s2)
    | None => (Raise StorageError, rolled_back s)
    end.
Proof.
  intros [Hnew Hcheck]%validate_Ok. unfold create, lift.
  unfold mbind at 1. unfold M_bind at 1. rewrite Hnew.
  unfold mbind at 1. unfold M_bind at 1. rewrite Hcheck.
  unfold try_except_reraise, session_add, session_commit, session_rollback,
    session_object, mbind, M_bind.
  by destruct (flush _) as [s2|].
Qed.

(** C7: update of an id that no route has does not raise EntityNotFound: it
    is create on the payload with the id injected.  When that payload is
    valid and the store accepts the new row, update returns a route with
    that id, which is committed and which get then finds under the id. *)
Theorem update_upsert rid route_data s route :
  get rid s = (Ok None, s) →
  validate (<["id" := Scalar (SStr rid)]> route_data) = Ok route →
  Forall identified (pending s) →
  db_accepts (assign_ids (next_id s) (pending s ++ [route])).2 = true →
  update rid route_data s
    = create (<["id" := Scalar (SStr rid)]> route_data) true s ∧
  never_missing (update rid route_data s).1 ∧
  ∃ created s',
    update rid route_data s = (Ok created, s') ∧
    route_id created = Scalar (SStr rid) ∧
    route_attrs created = route_attrs route ∧
    get rid s' = (Ok (Some (length (pending s), created)), s') ∧
    committed s' = pending s ++ [created] ∧
    pending s' = committed s'.
Proof.
  intros Hget Hvalid Hident Hacc.
  split; [by apply update_missing|].
  split; [apply update_never_missing|].
  rewrite (update_missing _ _ _ Hget), (create_stored _ _ _ Hvalid).
  apply validate_Ok in Hvalid as [Hnew _].
  apply new_route_id in Hnew.
  unfold flush, set_pending; simpl.
  rewrite assign_ids_app in Hacc |- *.
  rewrite (assign_ids_identified _ _ Hident) in Hacc |- *. simpl in Hacc |- *.
  pose proof (assign_route_ids_id (next_id s) route) as Hattrs.
  destruct (assign_route_ids (next_id s) route) as [n created].
  simpl in Hacc, Hattrs |- *. rewrite Hacc.
  specialize (Hattrs ltac:(by rewrite Hnew)).
  assert (route_id created = Scalar (SStr rid)) as Hid.
  { unfold route_id, route_getattr in *. by rewrite Hattrs. }
  eexists _, _. split; [reflexivity|]. simpl.
  rewrite lookup_app_r, Nat.sub_diag by lia. simpl.
  split_and!; try done.
  unfold get, made_durable; simpl.
  rewrite list_find_app_r by by apply get_missing.
  simpl. by rewrite decide_True.
Qed.

End Upsert.

Lemma update_upsert_witness :
  ∃ created s',
    @update (reference_collaborators outbound_method) "r7" inbound_route_data
            sample_session = (Ok created, s') ∧
    route_id created = Scalar (SStr "r7") ∧
    route_attrs created = <["id" := Scalar (SStr "r7")]> inbound_route_data ∧
    get "r7" s' = (Ok (Some (length (pending sample_session), created)), s') ∧
    committed s' = pending sample_session ++ [created] ∧
    pending s' = committed s'.
Proof.
  refine (proj2 (proj2
    (@update_upsert (reference_collaborators outbound_method) "r7"
       inbound_route_data sample_session
       (mkRoute (<["id" := Scalar (SStr "r7")]> inbound_route_data) [])
       _ _ _ _))).
  - vm_compute. reflexivity.
  - vm_compute. reflexivity.
  - repeat constructor; vm_compute; discriminate.
  - vm_compute. reflexivity.
Defined.

Section RulesKey.
Context `{Collaborators}.

(** *** The rule-entries key: absent, None, or a list *)

Lemma flush_Some s s2 :
  flush s = Some s2 →
  s2 = mkSession (committed s) (assign_ids (next_id s) (pending s)).2 []
                 (assign_ids (next_id s) (pending s)).1.
Proof.
  unfold flush. destruct (assign_ids (next_id s) (pending s)) as [n routes].
  destruct (db_accepts routes); [|done]. by intros [= <-].
Qed.

Lemma assign_ids_lookup_rules n routes a route :
  routes !! a = Some route →
  Forall (λ e, entry_id e ≠ SNone) (rule_entries_list route) →
  rule_entries_list <$> (assign_ids n routes).2 !! a
    = Some (rule_entries_list route).
Proof.
  intros Ha Hrules. destruct (assign_ids_lookup n _ _ _ Ha) as [m ->]. simpl.
  destruct (assign_route_ids_rules m route) as (m' & _ & ->).
  by rewrite assign_entry_ids_identified.
Qed.

Lemma filter_all {A} (P : A → Prop) `{∀ x, Decision (P x)} (l : list A) :
  Forall P l → filter P l = l.
Proof.
  induction 1 as [|x l Hx _ IH]; [done|].
  by rewrite filter_cons_True, IH.
Qed.

Lemma update_model_route_insert route route_data v :
  update_model_route route (<["rule_entries_list" := v]> route_data)
    = update_model_route route route_data.
Proof. unfold update_model_route. by rewrite delete_insert_eq. Qed.

(** On a settled session, update of an existing route with a payload that
    has no rule-entries key skips the reconciliation: it goes from the
    field merge straight to validation and commit, and whatever the
    outcome the rule entries of that route, persisted and in the unit of
    work, are the list they were, with no entry marked for deletion.  The
    session an update leaves when validation fails is not settled. *)
Lemma update_without_rules_key rid route_data s a route :
  get rid s = (Ok (Some (a, route)), s) →
  route_data !! "rule_entries_list" = None →
  settled s →
  update rid route_data s
    = finish a (update_model_route route route_data) (merged a route route_data s) ∧
  rule_entries_list (update_model_route route route_data) = rule_entries_list route ∧
  rule_entries_list <$> committed s !! a = Some (rule_entries_list route) ∧
  rule_entries_list <$> committed (update rid route_data s).2 !! a
    = Some (rule_entries_list route) ∧
  rule_entries_list <$> pending (update rid route_data s).2 !! a
    = Some (rule_entries_list route) ∧
  deleted (update rid route_data s).2 = [].
Proof.
  intros Hget Hkey (Hpending & Hdeleted & Hident).
  pose proof (get_found_lookup _ _ _ _ Hget) as [Ha _].
  assert (committed s !! a = Some route) as Hc by by rewrite <-Hpending.
  assert (Forall (λ e, entry_id e ≠ SNone) (rule_entries_list route)) as Hrules.
  { by destruct (Forall_lookup_1 _ _ _ _ Hident Hc). }
  rewrite (update_found _ _ _ _ _ Hget), Hkey.
  split; [done|]. split; [done|]. split; [by rewrite Hc|].
  pose proof (finish_cases a (update_model_route route route_data)
                (merged a route route_data s)) as Hf.
  assert (pending (merged a route route_data s) !! a
            = Some (update_model_route route route_data)) as Hm.
  { simpl. apply list_lookup_insert_eq. by eapply lookup_lt_Some. }
  destruct (check_route _) as [[]|e].
  - destruct (flush _) as [s2|] eqn:Hflush; rewrite Hf; simpl.
    + apply flush_Some in Hflush as ->. simpl.
      by rewrite (assign_ids_lookup_rules _ _ _ _ Hm Hrules).
    + by rewrite Hc.
  - rewrite Hf. simpl. rewrite Hc. simpl.
    by rewrite list_lookup_insert_eq by by eapply lookup_lt_Some.
Qed.

(** C10: on an existing route, a payload whose rule-entries key holds None
    is handled exactly as one whose key holds the empty list: the
    reconciliation runs, the route's list becomes empty and every prior
    rule entry is marked for deletion before validation and commit, and a
    successful update returns and persists the route without rule
    entries. *)
Theorem update_rules_none_as_empty rid route_data s a route :
  get rid s = (Ok (Some (a, route)), s) →
  update rid (<["rule_entries_list" := Scalar SNone]> route_data) s
    = update rid (<["rule_entries_list" := Records []]> route_data) s ∧
  update rid (<["rule_entries_list" := Scalar SNone]> route_data) s
    = finish a (mkRoute (route_attrs (update_model_route route route_data)) [])
        (mkSession (committed s)
           (<[a := mkRoute (route_attrs (update_model_route route route_data)) []]>
              (pending s))
           (deleted s ++ rule_entries_list route) (next_id s)) ∧
  (∀ updated s',
     update rid (<["rule_entries_list" := Scalar SNone]> route_data) s
       = (Ok updated, s') →
     rule_entries_list updated = [] ∧
     committed s' !! a = Some updated ∧ pending s' = committed s' ∧
     deleted s' = []).
Proof.
  intros Hget.
  pose proof (get_found_lookup _ _ _ _ Hget) as [Ha _].
  assert (∀ v, filters_data_of v = Ok [] →
    update rid (<["rule_entries_list" := v]> route_data) s
    = finish a (mkRoute (route_attrs (update_model_route route route_data)) [])
        (mkSession (committed s)
           (<[a := mkRoute (route_attrs (update_model_route route route_data)) []]>
              (pending s))
           (deleted s ++ rule_entries_list route) (next_id s))) as Hrun.
  { intros v Hv. rewrite (update_found _ _ _ _ _ Hget), lookup_insert_eq, Hv.
    unfold reconciled, removed_filters, target_entries, reconcile_loop; simpl.
    rewrite delete_insert_eq, take_ge by done.
    rewrite filter_all; [done|].
    apply Forall_forall. intros e _. apply not_elem_of_empty. }
  rewrite !Hrun by done. split; [done|]. split; [done|].
  intros updated s'.
  match goal with |- finish a ?r ?s1 = _ → _ =>
    pose proof (finish_cases a r s1) as Hf end.
  destruct (check_route _) as [[]|e]; [|rewrite Hf; congruence].
  destruct (flush _) as [s2|] eqn:Hflush; rewrite Hf; [|congruence].
  intros [= <- <-]. apply flush_Some in Hflush as ->. simpl.
  match goal with |- context [(assign_ids ?n ?rs).2 !! a] =>
    destruct (assign_ids_lookup n rs a
      (mkRoute (route_attrs (update_model_route route route_data)) []))
      as [m Hm] end.
  { apply list_lookup_insert_eq. by eapply lookup_lt_Some. }
  rewrite Hm. simpl. split_and!; try done.
  match goal with |- rule_entries_list (assign_route_ids m ?r).2 = [] =>
    by destruct (assign_route_ids_rules m r) as (m' & _ & ->) end.
Qed.

End RulesKey.

Lemma update_without_rules_key_witness :
  rule_entries_list <$>
    committed (@update (reference_collaborators outbound_method) "r1"
                 {[ "host_endpoint" := Scalar (SStr "(.*)\.example\.org") ]}
                 sample_session).2 !! 0
  = Some [sample_entry "A" "1"; sample_entry "B" "2"].
Proof.
  destruct (@update_without_rules_key (reference_collaborators outbound_method)
              "r1" {[ "host_endpoint" := Scalar (SStr "(.*)\.example\.org") ]}
              sample_session 0 sample_route)
    as (_ & _ & _ & Hcommitted & _).
  - vm_compute. reflexivity.
  - vm_compute. reflexivity.
  - split_and!; [reflexivity|reflexivity|].
    repeat constructor; vm_compute; discriminate.
  - exact Hcommitted.
Defined.

Lemma update_rules_none_as_empty_witness :
  @update (reference_collaborators outbound_method) "r1"
    (<["rule_entries_list" := Scalar SNone]> ∅) sample_session
  = @update (reference_collaborators outbound_method) "r1"
      (<["rule_entries_list" := Records []]> ∅) sample_session.
Proof.
  refine (proj1 (@update_rules_none_as_empty
            (reference_collaborators outbound_method) "r1" ∅
            sample_session 0 sample_route _)).
  vm_compute. reflexivity.
Defined.

Section Reconciliation.

(** *** The merge of a record into an entry *)

Lemma merge_filter_id d e : entry_id (merge_filter d e) = entry_id e.
Proof.
  unfold entry_id, entry_getattr, merge_filter, update_model_entry, update_model.
  simpl. rewrite lookup_union_r; [done|].
  apply map_lookup_filter_None_2. right. intros v _ Hin. apply Hin.
  simpl. apply list_elem_of_here.
Qed.

Lemma merge_filter_adopts d e name v :
  name ≠ "id" → d !! name = Some v →
  entry_attrs (merge_filter d e) !! name = Some v.
Proof.
  intros Hname Hd. simpl. unfold update_model.
  apply lookup_union_Some_l, map_lookup_filter_Some_2; [done|].
  simpl. by intros ?%list_elem_of_singleton.
Qed.

Lemma merge_filter_keeps d e name :
  d !! name = None →
  entry_attrs (merge_filter d e) !! name = entry_attrs e !! name.
Proof.
  intros Hd. simpl. unfold update_model.
  apply lookup_union_r, map_lookup_filter_None_2. by left.
Qed.

(** *** The dict of the current entries *)

Lemma current_fold_Some (m0 : gmap scalar nat) (ps : list (nat * RuleEntry)) k a :
  foldl (λ m ie, <[entry_id ie.2 := ie.1]> m) m0 ps !! k = Some a →
  m0 !! k = Some a ∨ ∃ e, (a, e) ∈ ps ∧ entry_id e = k.
Proof.
  revert m0. induction ps as [|[b e] ps IH]; intros m0; simpl; [by left|].
  intros [[[Hk Hb]|[_ Hm]]%lookup_insert_Some|(e' & Hin & Hid)]%IH.
  - simpl in *. subst. right. exists e. split; [apply list_elem_of_here|done].
  - by left.
  - right. exists e'. split; [by apply list_elem_of_further|done].
Qed.

Lemma current_fold_is_Some (m0 : gmap scalar nat) (ps : list (nat * RuleEntry)) k :
  is_Some (m0 !! k) ∨ (∃ a e, (a, e) ∈ ps ∧ entry_id e = k) →
  is_Some (foldl (λ m ie, <[entry_id ie.2 := ie.1]> m) m0 ps !! k).
Proof.
  revert m0. induction ps as [|[b e] ps IH]; intros m0; simpl.
  - intros [?|(a & e & Hin & _)]; [done|]. by apply elem_of_nil in Hin.
  - intros [Hm|(a & e' & Hin & Hid)]; apply IH.
    + left. apply lookup_insert_is_Some'. by right.
    + apply elem_of_cons in Hin as [[= -> ->]|Hin].
      * left. apply lookup_insert_is_Some'. by left.
      * right. eauto.
Qed.

Lemma current_filters_Some rules k a :
  current_filters rules !! k = Some a →
  ∃ e, rules !! a = Some e ∧ entry_id e = k.
Proof.
  intros [Hm|(e & Hin & Hid)]%current_fold_Some; [by rewrite lookup_empty in Hm|].
  apply elem_of_lookup_imap in Hin as (i & y & [= -> ->] & Hi). eauto.
Qed.

Lemma current_filters_is_Some rules e :
  e ∈ rules → is_Some (current_filters rules !! entry_id e).
Proof.
  intros [a Ha]%list_elem_of_lookup. apply current_fold_is_Some. right.
  exists a, e. split; [|done]. by apply (elem_of_lookup_imap_2 pair).
Qed.

Lemma current_filters_None rules k :
  (∀ e, e ∈ rules → entry_id e ≠ k) → current_filters rules !! k = None.
Proof.
  intros Hnone. apply eq_None_not_Some. intros [a Ha].
  apply current_filters_Some in Ha as (e & Ha & Hid).
  by apply (Hnone e); [eapply list_elem_of_lookup_2|].
Qed.

(** *** One turn of the loop *)

Lemma loop_body_cases current st d :
  (∃ a, record_id d ≠ SNone ∧ current !! record_id d = Some a ∧
     loop_body current st d =
       mkLoop (alter (merge_filter d) a (heap st)) (target_filters st ++ [a])
              (target_filters_ids st ∪
                 {[ entry_id (alter (merge_filter d) a (heap st) !!! a) ]})) ∨
  ((record_id d = SNone ∨ current !! record_id d = None) ∧
     loop_body current st d =
       mkLoop (heap st ++ [mkRuleEntry d])
              (target_filters st ++ [length (heap st)])
              (target_filters_ids st ∪ {[ record_id d ]})).
Proof.
  unfold loop_body. case_decide as Hid.
  - right. split; [by left|done].
  - destruct (current !! record_id d) as [a|] eqn:Hcur.
    + left. exists a. done.
    + right. split; [by right|done].
Qed.

Lemma loop_body_heap_length current st d :
  length (heap st) ≤ length (heap (loop_body current st d)).
Proof.
  destruct (loop_body_cases current st d) as [(a & _ & _ & ->)|[_ ->]]; simpl.
  - by rewrite length_alter.
  - rewrite length_app. lia.
Qed.

(** A turn leaves alone every object but the one its record matches. *)
Lemma loop_body_frame current st d b :
  b < length (heap st) →
  record_id d = SNone ∨ current !! record_id d ≠ Some b →
  heap (loop_body current st d) !! b = heap st !! b.
Proof.
  intros Hb Hother.
  destruct (loop_body_cases current st d) as [(a & Hid & Hcur & ->)|[_ ->]]; simpl.
  - apply list_lookup_alter_ne. intros ->. by destruct Hother.
  - by apply lookup_app_l.
Qed.

Lemma loop_body_entry_id current st d b :
  entry_id <$> heap (loop_body current st d) !! b = entry_id <$> heap st !! b ∨
  length (heap st) ≤ b.
Proof.
  destruct (decide (b < length (heap st))) as [Hb|]; [left|right; lia].
  destruct (loop_body_cases current st d) as [(a & Hid & Hcur & ->)|[_ ->]]; simpl.
  - rewrite list_lookup_alter. case_decide; [|done]. subst.
    destruct (heap st !! b); simpl; [|done]. by rewrite merge_filter_id.
  - by rewrite lookup_app_l.
Qed.

Lemma loop_frame current l st b :
  b < length (heap st) →
  (∀ d, d ∈ l → record_id d = SNone ∨ current !! record_id d ≠ Some b) →
  heap (foldl (loop_body current) st l) !! b = heap st !! b.
Proof.
  revert st. induction l as [|d l IH]; intros st Hb Hother; simpl; [done|].
  rewrite IH.
  - apply loop_body_frame; [done|]. apply Hother, list_elem_of_here.
  - pose proof (loop_body_heap_length current st d). lia.
  - intros d' Hd'. by apply Hother, list_elem_of_further.
Qed.

Lemma loop_entry_id current l st b :
  b < length (heap st) →
  entry_id <$> heap (foldl (loop_body current) st l) !! b
    = entry_id <$> heap st !! b.
Proof.
  revert st. induction l as [|d l IH]; intros st Hb; simpl; [done|].
  rewrite IH.
  - destruct (loop_body_entry_id current st d b); [done|lia].
  - pose proof (loop_body_heap_length current st d). lia.
Qed.

(** A turn appends one target, and the loop one target per record. *)
Lemma loop_targets current l st :
  ∃ added, target_filters (foldl (loop_body current) st l)
             = target_filters st ++ added ∧ length added = length l.
Proof.
  revert st. induction l as [|d l IH]; intros st; simpl.
  - exists []. by rewrite app_nil_r.
  - destruct (IH (loop_body current st d)) as (added & -> & Hlen).
    destruct (loop_body_cases current st d) as [(a & _ & _ & ->)|[_ ->]]; simpl;
      rewrite <-app_assoc; eexists; (split; [done|]); simpl; by rewrite Hlen.
Qed.

(** *** What the loop maintains *)

Lemma alter_merge_entry_id d a (h : list RuleEntry) b :
  entry_id (alter (merge_filter d) a h !!! b) = entry_id (h !!! b).
Proof.
  rewrite list_lookup_total_alter. case_decide as Hab; [|done].
  destruct Hab as [-> _]. apply merge_filter_id.
Qed.

Lemma matched_target rules st d a :
  loop_inv rules st →
  current_filters rules !! record_id d = Some a →
  a < length rules ∧ a < length (heap st) ∧
  entry_id <$> rules !! a = Some (record_id d) ∧
  entry_id (alter (merge_filter d) a (heap st) !!! a) = record_id d.
Proof.
  intros Hinv (e & Ha & Hid)%current_filters_Some.
  destruct (inv_rules _ _ Hinv a e Ha) as (e' & He' & Hid' & _).
  split_and!.
  - by eapply lookup_lt_Some.
  - by eapply lookup_lt_Some.
  - by rewrite Ha, <-Hid.
  - rewrite alter_merge_entry_id, (list_lookup_total_correct _ _ _ He').
    congruence.
Qed.

Lemma loop_body_target_ids rules st d :
  loop_inv rules st →
  entry_id <$> target_entries (loop_body (current_filters rules) st d)
    = (entry_id <$> target_entries st) ++ [record_id d].
Proof.
  intros Hinv. unfold target_entries.
  destruct (loop_body_cases (current_filters rules) st d)
    as [(a & Hid & Hcur & ->)|[_ ->]]; simpl;
    rewrite !fmap_app, <-!list_fmap_compose; simpl; f_equal.
  - apply list_fmap_ext. intros i b _. simpl. apply alter_merge_entry_id.
  - f_equal. by apply (matched_target rules).
  - apply Forall_fmap_ext_1. eapply Forall_impl; [apply (inv_target _ _ Hinv)|].
    intros b Hb. simpl. by rewrite lookup_total_app_l.
  - by rewrite list_lookup_total_middle.
Qed.

Lemma loop_body_inv rules st d :
  loop_inv rules st → loop_inv rules (loop_body (current_filters rules) st d).
Proof.
  intros Hinv.
  pose proof (loop_body_target_ids rules st d Hinv) as Hids.
  pose proof (loop_body_heap_length (current_filters rules) st d) as Hlen.
  destruct Hinv as [Hlength Hrules Htarget Htids].
  destruct (loop_body_cases (current_filters rules) st d)
    as [(a & Hid & Hcur & Heq)|[Hnew Heq]];
    rewrite Heq in Hids, Hlen |- *; simpl in Hlen.
  - destruct (matched_target rules st d a (mkLoopInv _ _ Hlength Hrules Htarget Htids) Hcur)
      as (Ha & Hah & Hrid & Htid).
    split; simpl.
    + lia.
    + intros b e Hb. destruct (Hrules b e Hb) as (e' & He' & Hid' & Hsame).
      destruct (decide (a = b)) as [->|Hne].
      * exists (merge_filter d e'). rewrite list_lookup_alter_eq, He'.
        split; [done|]. rewrite merge_filter_id. split; [done|]. right.
        apply elem_of_union_r, elem_of_singleton.
        rewrite Hb in Hrid. simpl in Hrid. congruence.
      * exists e'. rewrite list_lookup_alter_ne by done.
        split; [done|]. split; [done|].
        destruct Hsame; [by left|right; by apply elem_of_union_l].
    + apply Forall_app. split; [|apply Forall_singleton; lia].
      eapply Forall_impl; [exact Htarget|]. simpl. intros. lia.
    + rewrite Hids, list_to_set_snoc_L, Htids, Htid. done.
  - split; simpl.
    + lia.
    + intros b e Hb. destruct (Hrules b e Hb) as (e' & He' & Hid' & Hsame).
      exists e'. split; [by apply lookup_app_l_Some|]. split; [done|].
      destruct Hsame; [by left|right; by apply elem_of_union_l].
    + apply Forall_app. split.
      * eapply Forall_impl; [exact Htarget|]. simpl. intros. lia.
      * apply Forall_singleton. rewrite length_app. simpl. lia.
    + rewrite Hids, list_to_set_snoc_L, Htids. done.
Qed.

Lemma loop_inv_start rules : loop_inv rules (mkLoop rules [] ∅).
Proof.
  split; simpl; [done| |done|done].
  intros a e Ha. exists e. auto.
Qed.

Lemma loop_inv_fold rules l st :
  loop_inv rules st → loop_inv rules (foldl (loop_body (current_filters rules)) st l).
Proof.
  revert st. induction l as [|d l IH]; intros st Hinv; simpl; [done|].
  by apply IH, loop_body_inv.
Qed.

Lemma reconcile_loop_inv rules l : loop_inv rules (reconcile_loop rules l).
Proof. apply loop_inv_fold, loop_inv_start. Qed.

Lemma loop_target_ids rules l st :
  loop_inv rules st →
  entry_id <$> target_entries (foldl (loop_body (current_filters rules)) st l)
    = (entry_id <$> target_entries st) ++ (record_id <$> l).
Proof.
  revert st. induction l as [|d l IH]; intros st Hinv; simpl.
  - by rewrite app_nil_r.
  - rewrite IH by by apply loop_body_inv.
    by rewrite loop_body_target_ids, <-app_assoc.
Qed.

Lemma reconcile_loop_snoc rules pre d :
  reconcile_loop rules (pre ++ [d])
    = loop_body (current_filters rules) (reconcile_loop rules pre) d.
Proof. unfold reconcile_loop. by rewrite foldl_snoc. Qed.

Lemma reconcile_loop_middle rules pre d post :
  reconcile_loop rules (pre ++ d :: post)
    = foldl (loop_body (current_filters rules))
            (reconcile_loop rules (pre ++ [d])) post.
Proof. unfold reconcile_loop. by rewrite !foldl_app. Qed.

End Reconciliation.

Section MatchedAndNew.
Context `{Collaborators}.

Lemma reconcile_loop_targets_length rules l :
  length (target_filters (reconcile_loop rules l)) = length l.
Proof.
  destruct (loop_targets (current_filters rules) l (mkLoop rules [] ∅))
    as (added & Heq & Hlen).
  unfold reconcile_loop. by rewrite Heq.
Qed.

Lemma reconcile_loop_target_at rules pre d post a :
  target_filters (reconcile_loop rules (pre ++ [d]))
    = target_filters (reconcile_loop rules pre) ++ [a] →
  target_filters (reconcile_loop rules (pre ++ d :: post)) !! length pre = Some a.
Proof.
  intros Hafter. rewrite reconcile_loop_middle.
  destruct (loop_targets (current_filters rules) post
              (reconcile_loop rules (pre ++ [d]))) as (added & -> & _).
  rewrite Hafter, <-app_assoc. simpl.
  apply list_lookup_middle. by rewrite reconcile_loop_targets_length.
Qed.

(** C4: an incoming record that carries the id of an entry of the route's
    current collection is merged into that very object: the turn of the
    loop allocates nothing, changes no other object and takes the object
    as its target; the object keeps its id field, takes every other field
    the record supplies and keeps the fields the record does not name.  At
    the end of the loop the object still has its id and stands at the
    record's position in the target list, and it still has the merged
    state when no later record carries the same id. *)
Theorem reconcile_matched_entry rules pre d post e :
  e ∈ rules → record_id d = entry_id e → entry_id e ≠ SNone →
  let before := reconcile_loop rules pre in
  let after := reconcile_loop rules (pre ++ [d]) in
  let final := reconcile_loop rules (pre ++ d :: post) in
  ∃ a old,
    entry_id <$> rules !! a = Some (entry_id e) ∧
    heap before !! a = Some old ∧
    heap after = alter (merge_filter d) a (heap before) ∧
    heap after !! a = Some (merge_filter d old) ∧
    (∀ b, b ≠ a → heap after !! b = heap before !! b) ∧
    length (heap after) = length (heap before) ∧
    target_filters after = target_filters before ++ [a] ∧
    entry_attrs (merge_filter d old) !! "id" = entry_attrs old !! "id" ∧
    entry_id (merge_filter d old) = entry_id e ∧
    (∀ name v, name ≠ "id" → d !! name = Some v →
       entry_attrs (merge_filter d old) !! name = Some v) ∧
    (∀ name, d !! name = None →
       entry_attrs (merge_filter d old) !! name = entry_attrs old !! name) ∧
    target_filters final !! length pre = Some a ∧
    entry_id <$> heap final !! a = Some (entry_id e) ∧
    ((∀ d', d' ∈ post → record_id d' ≠ entry_id e) →
       heap final !! a = Some (merge_filter d old)).
Proof.
  intros He Hd Hid before after final.
  destruct (current_filters_is_Some rules e He) as [a Hcur].
  rewrite <-Hd in Hcur.
  pose proof (reconcile_loop_inv rules pre) as Hinv. fold before in Hinv.
  destruct (matched_target rules before d a Hinv Hcur) as (Ha & Hah & Hrid & _).
  destruct (lookup_lt_is_Some_2 _ _ Hah) as [old Hold].
  assert (entry_id old = entry_id e) as Hold_id.
  { destruct (rules !! a) as [e0|] eqn:He0; [|done]. simpl in Hrid.
    destruct (inv_rules _ _ Hinv a e0 He0) as (e' & He' & Hid' & _).
    congruence. }
  assert (heap after = alter (merge_filter d) a (heap before) ∧
          target_filters after = target_filters before ++ [a]) as [Hheap Htarget].
  { unfold after. rewrite reconcile_loop_snoc. fold before.
    destruct (loop_body_cases (current_filters rules) before d)
      as [(a' & _ & Hcur' & ->)|[[Hnone|Hnone] _]]; [|congruence|congruence].
    simpl. by replace a' with a by congruence. }
  assert (heap after !! a = Some (merge_filter d old)) as Hafter.
  { by rewrite Hheap, list_lookup_alter_eq, Hold. }
  exists a, old. split_and!; try done.
  - congruence.
  - intros b Hb. rewrite Hheap. by apply list_lookup_alter_ne.
  - by rewrite Hheap, length_alter.
  - unfold merge_filter, update_model_entry. simpl.
    pose proof (merge_filter_id d old) as Hm.
    unfold merge_filter, update_model_entry, entry_id, entry_getattr in Hm.
    simpl in Hm. unfold update_model in *.
    rewrite lookup_union_r; [done|].
    apply map_lookup_filter_None_2. right. intros v _ Hin. apply Hin.
    simpl. apply list_elem_of_here.
  - by rewrite merge_filter_id.
  - intros name v. apply merge_filter_adopts.
  - intros name. apply merge_filter_keeps.
  - by apply reconcile_loop_target_at.
  - unfold final. rewrite reconcile_loop_middle. fold after.
    rewrite loop_entry_id by (rewrite Hheap, length_alter; done).
    rewrite Hafter. simpl. by rewrite merge_filter_id, Hold_id.
  - intros Hlast. unfold final. rewrite reconcile_loop_middle. fold after.
    rewrite loop_frame; [done|by rewrite Hheap, length_alter|].
    intros d' Hd'. right. intros (e0 & He0 & Hid0)%current_filters_Some.
    apply (Hlast d' Hd'). rewrite He0 in Hrid. simpl in Hrid. congruence.
Qed.

Lemma reconcile_loop_new_entry rules pre d post :
  record_id d = SNone ∨ current_filters rules !! record_id d = None →
  let before := reconcile_loop rules pre in
  let after := reconcile_loop rules (pre ++ [d]) in
  let final := reconcile_loop rules (pre ++ d :: post) in
  heap after = heap before ++ [mkRuleEntry d] ∧
  target_filters after = target_filters before ++ [length (heap before)] ∧
  length rules ≤ length (heap before) ∧
  target_filters final !! length pre = Some (length (heap before)) ∧
  heap final !! length (heap before) = Some (mkRuleEntry d).
Proof.
  intros Hnew before after final.
  pose proof (reconcile_loop_inv rules pre) as Hinv. fold before in Hinv.
  assert (heap after = heap before ++ [mkRuleEntry d] ∧
          target_filters after = target_filters before ++ [length (heap before)])
    as [Hheap Htarget].
  { unfold after. rewrite reconcile_loop_snoc. fold before.
    destruct (loop_body_cases (current_filters rules) before d)
      as [(a' & Hid & Hcur' & _)|[_ ->]]; [|done].
    destruct Hnew; congruence. }
  pose proof (inv_length _ _ Hinv) as Hlen.
  split_and!; try done.
  - by apply reconcile_loop_target_at.
  - unfold final. rewrite reconcile_loop_middle. fold after.
    rewrite loop_frame.
    + rewrite Hheap. by apply list_lookup_middle.
    + rewrite Hheap, length_app. simpl. lia.
    + intros d' _. right. intros (e0 & He0 & _)%current_filters_Some.
      apply lookup_lt_Some in He0. lia.
Qed.

(** The loop on an unmatched record, and the flush of what it builds: an
    incoming record whose id is absent, None, or the id of no entry of the
    route's current collection gives a brand-new object, appended to the
    heap at an address beyond those of the current entries, taken as the
    turn's target and left alone by the rest of the loop; its attributes
    are exactly the fields of the record.  A flush that reaches the entry
    at the number [n] gives it the [n]-th identity if the record has no
    id, and leaves it its id otherwise. *)
Lemma reconcile_new_entry rules pre d post n :
  record_id d = SNone ∨ (∀ e, e ∈ rules → entry_id e ≠ record_id d) →
  let before := reconcile_loop rules pre in
  let after := reconcile_loop rules (pre ++ [d]) in
  let final := reconcile_loop rules (pre ++ d :: post) in
  heap after = heap before ++ [mkRuleEntry d] ∧
  target_filters after = target_filters before ++ [length (heap before)] ∧
  length rules ≤ length (heap before) ∧
  target_filters final !! length pre = Some (length (heap before)) ∧
  heap final !! length (heap before) = Some (mkRuleEntry d) ∧
  entry_attrs (mkRuleEntry d) = d ∧
  (record_id d = SNone →
     assign_entry_id n (mkRuleEntry d)
       = (S n, mkRuleEntry (<["id" := SStr (new_id n)]> d))) ∧
  (record_id d ≠ SNone →
     assign_entry_id n (mkRuleEntry d) = (n, mkRuleEntry d) ∧
     entry_id (assign_entry_id n (mkRuleEntry d)).2 = record_id d).
Proof.
  intros Hnew before after final.
  destruct (reconcile_loop_new_entry rules pre d post) as (?&?&?&?&?).
  { destruct Hnew as [?|Hnone]; [by left|right].
    by apply current_filters_None. }
  split_and!; try done.
  - intros Hid. unfold assign_entry_id. by rewrite decide_True.
  - intros Hid. unfold assign_entry_id. by rewrite decide_False.
Qed.

End MatchedAndNew.

(** Against C5 as stated: an incoming record with an id that no entry of
    the sample route has gives a new entry that is persisted under that
    very id, which is none of the identities the store hands out. *)
Lemma reconcile_keeps_unmatched_id :
  let d : gmap string scalar := {[ "id" := SStr "X"; "x" := SStr "c" ]} in
  (∀ e, e ∈ rule_entries_list sample_route → entry_id e ≠ record_id d) ∧
  (∀ n, SStr (@new_id (reference_collaborators outbound_method) n) ≠ record_id d) ∧
  ∃ updated,
    @update (reference_collaborators outbound_method) "r1"
      {[ "rule_entries_list" := Records [d] ]} sample_session
    = (Ok updated, mkSession [updated] [updated] [] 0) ∧
    rule_entries_list updated = [mkRuleEntry d] ∧
    entry_id <$> rule_entries_list updated = [SStr "X"].
Proof.
  split_and!.
  - intros e He. vm_compute in He.
    apply elem_of_cons in He as [->|He]; [vm_compute; discriminate|].
    apply list_elem_of_singleton in He as ->. vm_compute. discriminate.
  - intros n. simpl. discriminate.
  - eexists. split_and!; [vm_compute; reflexivity|reflexivity|reflexivity].
Qed.

Lemma reconcile_matched_entry_witness :
  let rules := rule_entries_list sample_route in
  let d : gmap string scalar := {[ "id" := SStr "A"; "x" := SStr "9" ]} in
  let post : list (gmap string scalar) := [ {[ "x" := SStr "c" ]} ] in
  ∃ a old,
    heap (reconcile_loop rules []) !! a = Some old ∧
    target_filters (reconcile_loop rules ([] ++ d :: post)) !! 0 = Some a ∧
    entry_id <$> heap (reconcile_loop rules ([] ++ d :: post)) !! a
      = Some (SStr "A") ∧
    heap (reconcile_loop rules ([] ++ d :: post)) !! a = Some (merge_filter d old).
Proof.
  intros rules d post.
  destruct (reconcile_matched_entry rules [] d post (sample_entry "A" "1"))
    as (a & old & _ & Hold & _ & _ & _ & _ & _ & _ & _ & _ & _ & Hat & Hid & Hlast).
  - apply list_elem_of_here.
  - vm_compute. reflexivity.
  - vm_compute. discriminate.
  - exists a, old. split_and!; [exact Hold|exact Hat|exact Hid|].
    apply Hlast. intros d' ->%list_elem_of_singleton. vm_compute. discriminate.
Defined.

Lemma reconcile_new_entry_witness :
  let rules := rule_entries_list sample_route in
  let d : gmap string scalar := {[ "x" := SStr "c" ]} in
  heap (reconcile_loop rules ([] ++ d :: [])) !! length rules = Some (mkRuleEntry d) ∧
  @assign_entry_id (reference_collaborators outbound_method) 0 (mkRuleEntry d)
    = (1, mkRuleEntry (<["id" := SStr "generated-0"]> d)).
Proof.
  intros rules d.
  destruct (@reconcile_new_entry (reference_collaborators outbound_method)
              rules [] d [] 0) as (_ & _ & _ & _ & Hfinal & _ & Hfresh & _).
  - left. vm_compute. reflexivity.
  - split; [exact Hfinal|]. apply Hfresh. vm_compute. reflexivity.
Defined.

Section NewCollection.
Context `{Collaborators}.

(** *** The collection a reconciliation leaves *)

Lemma filter_related {A} (P : A → Prop) `{∀ x, Decision (P x)} (l1 l2 : list A) :
  Forall2 (λ x y, x = y ∨ (¬ P x ∧ ¬ P y)) l1 l2 → filter P l1 = filter P l2.
Proof.
  induction 1 as [|x y l1 l2 [->|[Hx Hy]] _ IH]; [done| |].
  - rewrite !filter_cons. by rewrite IH.
  - by rewrite !filter_cons_False.
Qed.

Lemma reconcile_target_ids rules l :
  entry_id <$> target_entries (reconcile_loop rules l) = record_id <$> l.
Proof.
  unfold reconcile_loop. by rewrite loop_target_ids by apply loop_inv_start.
Qed.

Lemma reconcile_removed rules l :
  removed_filters rules (reconcile_loop rules l)
    = filter (λ e, entry_id e ∉ record_id <$> l) rules.
Proof.
  pose proof (reconcile_loop_inv rules l) as Hinv.
  unfold removed_filters.
  rewrite (filter_related _ _ rules).
  - apply list_filter_iff. intros e.
    by rewrite (inv_target_ids _ _ Hinv), elem_of_list_to_set,
      reconcile_target_ids.
  - apply Forall2_same_length_lookup. split.
    + apply length_take_le, (inv_length _ _ Hinv).
    + intros a x y [Hx _]%lookup_take_Some Hy.
      destruct (inv_rules _ _ Hinv a y Hy) as (e' & He' & Hid & Hsame).
      replace e' with x in * by congruence.
      destruct Hsame as [->|Hin]; [by left|right].
      split; intros Hout; apply Hout; congruence.
Qed.

Lemma reconcile_target_lookup rules l t i :
  target_filters (reconcile_loop rules l) !! i = Some t →
  target_entries (reconcile_loop rules l) !! i
    = heap (reconcile_loop rules l) !! t.
Proof.
  intros Ht. unfold target_entries. rewrite list_lookup_fmap, Ht. simpl.
  symmetry. apply list_lookup_lookup_total_lt.
  pose proof (inv_target _ _ (reconcile_loop_inv rules l)) as Htargets.
  by apply (Forall_lookup_1 _ _ _ _ Htargets Ht).
Qed.

Lemma reconcile_record_target_middle rules pre d post :
  let st := reconcile_loop rules (pre ++ d :: post) in
  ∃ t, target_filters st !! length pre = Some t ∧
       target_entries st !! length pre = heap st !! t ∧
       ((record_id d ≠ SNone ∧ current_filters rules !! record_id d = Some t ∧
         t < length rules) ∨
        ((record_id d = SNone ∨ current_filters rules !! record_id d = None) ∧
         length rules ≤ t ∧ heap st !! t = Some (mkRuleEntry d))).
Proof.
  intros st.
  destruct (loop_body_cases (current_filters rules) (reconcile_loop rules pre) d)
    as [(t & Hid & Hcur & Hbody)|[Hnew Hbody]].
  - exists t.
    assert (target_filters st !! length pre = Some t) as Ht.
    { apply reconcile_loop_target_at. by rewrite reconcile_loop_snoc, Hbody. }
    split; [done|]. split; [by apply reconcile_target_lookup|]. left.
    split; [done|]. split; [done|].
    by destruct (matched_target rules _ d t (reconcile_loop_inv rules pre) Hcur).
  - destruct (reconcile_loop_new_entry rules pre d post Hnew)
      as (_ & _ & Hlength & Ht & Hheap).
    exists (length (heap (reconcile_loop rules pre))).
    split; [done|]. split; [by apply reconcile_target_lookup|]. by right.
Qed.

Lemma reconcile_record_target rules l i d :
  l !! i = Some d →
  let st := reconcile_loop rules l in
  ∃ t, target_filters st !! i = Some t ∧
       target_entries st !! i = heap st !! t ∧
       ((record_id d ≠ SNone ∧ current_filters rules !! record_id d = Some t ∧
         t < length rules) ∨
        ((record_id d = SNone ∨ current_filters rules !! record_id d = None) ∧
         length rules ≤ t ∧ heap st !! t = Some (mkRuleEntry d))).
Proof.
  intros Hi.
  pose proof (reconcile_record_target_middle rules (take i l) d (drop (S i) l))
    as Hmiddle.
  rewrite (take_drop_middle _ _ _ Hi) in Hmiddle.
  rewrite length_take_le in Hmiddle; [done|].
  apply Nat.lt_le_incl. by eapply lookup_lt_Some.
Qed.

(** *** The loop against the contract's reading *)

Lemma current_filters_snoc rules e :
  current_filters (rules ++ [e])
    = <[entry_id e := length rules]> (current_filters rules).
Proof.
  unfold current_filters. rewrite imap_app, foldl_app. simpl.
  by rewrite Nat.add_0_r.
Qed.

(** The dict of line 75 finds, for an id, the last entry that carries it. *)
Lemma current_filters_matching rules id :
  id ≠ SNone →
  current_filters rules !! id ≫= (λ a, rules !! a) = matching_entry rules id.
Proof.
  intros Hid. unfold matching_entry. rewrite decide_False by done.
  induction rules as [|e rules IH] using rev_ind; [done|].
  rewrite current_filters_snoc, filter_app.
  destruct (decide (entry_id e = id)) as [He|He].
  - rewrite He, lookup_insert_eq. simpl.
    rewrite (list_lookup_middle rules [] e) by done.
    by rewrite filter_cons_True, filter_nil, last_snoc.
  - rewrite lookup_insert_ne by done.
    rewrite filter_cons_False, filter_nil, app_nil_r, <-IH by done.
    destruct (current_filters rules !! id) as [a|] eqn:Ha; [|done]. simpl.
    apply current_filters_Some in Ha as (e0 & Ha & _).
    rewrite Ha. by apply lookup_app_l_Some.
Qed.

Lemma merged_entry_snoc p d e :
  merged_entry (p ++ [d]) e =
    if decide (record_id d = entry_id e) then merge_filter d (merged_entry p e)
    else merged_entry p e.
Proof.
  unfold merged_entry. rewrite filter_app. case_decide.
  - by rewrite filter_cons_True, filter_nil, foldl_app.
  - by rewrite filter_cons_False, filter_nil, app_nil_r.
Qed.

(** An entry of the current collection, after the records [p]: merged with
    the records of its id if it is the entry the dict holds for that id,
    and as it was otherwise. *)
Lemma reconcile_loop_heap rules p t e :
  rules !! t = Some e →
  heap (reconcile_loop rules p) !! t =
    Some (if decide (entry_id e ≠ SNone ∧
                     current_filters rules !! entry_id e = Some t)
          then merged_entry p e else e).
Proof.
  intros Ht. induction p as [|d p IH] using rev_ind.
  - simpl. rewrite Ht. by case_decide.
  - rewrite reconcile_loop_snoc, merged_entry_snoc.
    destruct (loop_body_cases (current_filters rules) (reconcile_loop rules p) d)
      as [(a & Hid & Hcur & ->)|[Hnew ->]]; simpl.
    + pose proof Hcur as (e0 & Ha & Hid0)%current_filters_Some.
      destruct (decide (a = t)) as [->|Hne].
      * replace e0 with e in * by congruence.
        rewrite list_lookup_alter_eq, IH. simpl.
        by rewrite !decide_True by (rewrite ?Hid0; done).
      * rewrite list_lookup_alter_ne, IH by done. f_equal.
        case_decide as Hcond; [|done].
        rewrite decide_False; [done|].
        intros Heq. destruct Hcond as [_ Hcond]. congruence.
    + rewrite lookup_app_l by (eapply lookup_lt_Some; exact IH).
      rewrite IH. f_equal. case_decide as Hcond; [|done].
      rewrite decide_False; [done|].
      intros Heq. destruct Hcond as [Hset Hcond].
      destruct Hnew as [Hnone|Hnone]; congruence.
Qed.

(** The list the loop builds is the collection the contract words. *)
Lemma reconcile_loop_refines rules l :
  target_entries (reconcile_loop rules l) = reconciled_entries rules l.
Proof.
  apply list_eq. intros i. unfold reconciled_entries.
  rewrite list_lookup_fmap.
  destruct (l !! i) as [d|] eqn:Hi; simpl.
  - destruct (reconcile_record_target rules l i d Hi)
      as (t & _ & -> & [(Hid & Hcur & Hlt)|(Hnew & _ & ->)]).
    + pose proof Hcur as (e & Ht & He)%current_filters_Some.
      rewrite (reconcile_loop_heap _ _ _ _ Ht).
      rewrite decide_True by (rewrite He; done).
      by rewrite <-(current_filters_matching rules (record_id d) Hid), Hcur;
        simpl; rewrite Ht.
    + destruct (decide (record_id d = SNone)) as [Hnone|Hset].
      * unfold matching_entry. by rewrite decide_True.
      * rewrite <-(current_filters_matching rules (record_id d) Hset).
        destruct Hnew as [Hnone|Hnone]; rewrite ?Hnone; done.
  - apply lookup_ge_None. unfold target_entries.
    rewrite length_fmap, reconcile_loop_targets_length.
    by apply lookup_ge_None.
Qed.

(** C6: update of an existing route with a list under the rule-entries key
    runs the reconciliation before validation and commit.  The route's new
    list is the incoming records, in their order, after merge and
    creation: at the position of a record stands the existing entry that
    carries the record's id, with the fields of the records of that id
    merged into it, or else a new entry made of the record's fields; it
    has one entry per record, with the records' ids.  Every prior entry
    whose id is not an id of the target list is marked for deletion and is
    not in the new list; with the empty list the new list is empty and
    every prior entry is marked.  When the update returns, the persisted
    route holds that list, entries without an id having received one from
    the store. *)
Theorem update_rules_reconciled rid route_data s a route l :
  get rid s = (Ok (Some (a, route)), s) →
  route_data !! "rule_entries_list" = Some (Records l) →
  let rules := rule_entries_list route in
  let st := reconcile_loop rules l in
  let reconciled_route :=
    mkRoute (route_attrs (update_model_route route route_data)) (target_entries st) in
  update rid route_data s
    = finish a reconciled_route (reconciled a route route_data l s) ∧
  pending (reconciled a route route_data l s) !! a = Some reconciled_route ∧
  deleted (reconciled a route route_data l s)
    = deleted s ++ removed_filters rules st ∧
  target_entries st = reconciled_entries rules l ∧
  length (target_entries st) = length l ∧
  entry_id <$> target_entries st = record_id <$> l ∧
  (∀ i d, l !! i = Some d →
     ∃ t, target_filters st !! i = Some t ∧
          target_entries st !! i = heap st !! t ∧
          ((record_id d ≠ SNone ∧ current_filters rules !! record_id d = Some t ∧
            t < length rules) ∨
           ((record_id d = SNone ∨ current_filters rules !! record_id d = None) ∧
            length rules ≤ t ∧ heap st !! t = Some (mkRuleEntry d)))) ∧
  removed_filters rules st
    = filter (λ e, entry_id e ∉ entry_id <$> target_entries st) rules ∧
  (∀ e, e ∈ removed_filters rules st → e ∉ target_entries st) ∧
  (l = [] → target_entries st = [] ∧ removed_filters rules st = rules) ∧
  (∀ updated s', update rid route_data s = (Ok updated, s') →
     (∃ n, rule_entries_list updated = (assign_entry_ids n (target_entries st)).2) ∧
     committed s' !! a = Some updated ∧ pending s' = committed s' ∧
     deleted s' = []).
Proof.
  intros Hget Hkey rules st reconciled_route.
  pose proof (get_found_lookup _ _ _ _ Hget) as [Ha _].
  assert (update rid route_data s
            = finish a reconciled_route (reconciled a route route_data l s)) as Hrun.
  { rewrite (update_found _ _ _ _ _ Hget), Hkey.
    unfold filters_data_of, truthy.
    destruct (decide (l = [])) as [->|Hne].
    - by rewrite bool_decide_eq_true_2.
    - by rewrite bool_decide_eq_false_2. }
  assert (pending (reconciled a route route_data l s) !! a = Some reconciled_route)
    as Hpending.
  { simpl. apply list_lookup_insert_eq. by eapply lookup_lt_Some. }
  assert (removed_filters rules st
            = filter (λ e, entry_id e ∉ entry_id <$> target_entries st) rules)
    as Hremoved.
  { unfold st. by rewrite reconcile_removed, reconcile_target_ids. }
  split_and!; try done.
  - apply reconcile_loop_refines.
  - unfold target_entries. rewrite length_fmap. apply reconcile_loop_targets_length.
  - apply reconcile_target_ids.
  - intros i d Hi. by apply reconcile_record_target.
  - intros e He Hin. rewrite Hremoved in He.
    apply list_elem_of_filter in He as [Hout _].
    by apply Hout, list_elem_of_fmap_2.
  - intros ->. unfold st, removed_filters, reconcile_loop; simpl.
    split; [done|]. rewrite take_ge by done.
    apply filter_all, Forall_forall. intros e _. apply not_elem_of_empty.
  - intros updated s'. rewrite Hrun.
    pose proof (finish_cases a reconciled_route
                  (reconciled a route route_data l s)) as Hf.
    destruct (check_route reconciled_route) as [[]|e]; [|rewrite Hf; congruence].
    destruct (flush _) as [s2|] eqn:Hflush; rewrite Hf; [|congruence].
    intros [= <- <-]. apply flush_Some in Hflush as ->.
    destruct (assign_ids_lookup (next_id (reconciled a route route_data l s))
                _ _ _ Hpending) as [m Hm].
    cbn [pending made_durable committed deleted]. rewrite Hm.
    cbn [default]. split_and!; try done.
    destruct (assign_route_ids_rules m reconciled_route) as (n & _ & Hn).
    exists n. exact Hn.
Qed.

End NewCollection.

Lemma update_rules_reconciled_witness :
  let rules := rule_entries_list sample_route in
  let l : list (gmap string scalar) :=
    [ {[ "id" := SStr "A"; "x" := SStr "9" ]}; {[ "x" := SStr "c" ]} ] in
  let st := reconcile_loop rules l in
  target_entries st
    = [sample_entry "A" "9"; mkRuleEntry {[ "x" := SStr "c" ]}] ∧
  length (target_entries st) = 2 ∧
  entry_id <$> target_entries st = [SStr "A"; SNone] ∧
  (∀ e, e ∈ removed_filters rules st → e ∉ target_entries st).
Proof.
  intros rules l st.
  destruct (@update_rules_reconciled (reference_collaborators outbound_method)
              "r1" {[ "rule_entries_list" := Records l ]} sample_session
              0 sample_route l)
    as (_ & _ & _ & Hspec & Hlength & Hids & _ & _ & Hremoved & _).
  - vm_compute. reflexivity.
  - vm_compute. reflexivity.
  - split_and!; [|exact Hlength|exact Hids|exact Hremoved].
    etrans; [exact Hspec|]. vm_compute. reflexivity.
Defined.

(** The scenario of a route with entries A and B updated with A modified
    and a new entry without id: A keeps its id and takes the new field, the
    new entry follows it with an identity from the store, and B is gone. *)
Example update_modified_and_new_entry :
  ∃ updated,
    @update (reference_collaborators outbound_method) "r1"
      {[ "rule_entries_list" :=
           Records [ {[ "id" := SStr "A"; "x" := SStr "9" ]}; {[ "x" := SStr "c" ]} ] ]}
      sample_session
    = (Ok updated, mkSession [updated] [updated] [] 1) ∧
    rule_entries_list updated
      = [ sample_entry "A" "9";
          mkRuleEntry {[ "id" := SStr "generated-0"; "x" := SStr "c" ]} ].
Proof. eexists. split; vm_compute; reflexivity. Qed.

Section FreshIdentity.
Context `{Collaborators}.

(** *** The identities a flush hands out *)

Lemma count_unset_nil : count_unset [] = 0.
Proof. done. Qed.

Lemma count_unset_app l1 l2 :
  count_unset (l1 ++ l2) = count_unset l1 + count_unset l2.
Proof. unfold count_unset. by rewrite filter_app, length_app. Qed.

Lemma count_unset_cons e rules :
  count_unset (e :: rules)
    = (if decide (entry_id e = SNone) then 1 else 0) + count_unset rules.
Proof. unfold count_unset. rewrite filter_cons. by case_decide. Qed.

Lemma count_unset_take_le rules j1 j2 :
  j1 ≤ j2 → count_unset (take j1 rules) ≤ count_unset (take j2 rules).
Proof.
  intros Hj. rewrite <-(take_drop j1 (take j2 rules)), take_take, Nat.min_l by done.
  rewrite count_unset_app. lia.
Qed.

Lemma count_unset_take rules j : count_unset (take j rules) ≤ count_unset rules.
Proof.
  rewrite <-(take_drop j rules) at 2. rewrite count_unset_app. lia.
Qed.

Lemma count_unset_take_S rules j e :
  rules !! j = Some e → entry_id e = SNone →
  count_unset (take (S j) rules) = S (count_unset (take j rules)).
Proof.
  intros Hj He. rewrite (take_S_r _ _ _ Hj), count_unset_app, count_unset_cons.
  rewrite decide_True, count_unset_nil by done. lia.
Qed.

Lemma assign_entry_id_counter n e :
  (assign_entry_id n e).1 = n + (if decide (entry_id e = SNone) then 1 else 0).
Proof. unfold assign_entry_id. case_decide; simpl; lia. Qed.

Lemma assign_entry_ids_counter n rules :
  (assign_entry_ids n rules).1 = n + count_unset rules.
Proof.
  revert n. induction rules as [|e rest IH]; intros n.
  - rewrite count_unset_nil. simpl. lia.
  - rewrite count_unset_cons. cbn [assign_entry_ids].
    pose proof (assign_entry_id_counter n e) as He.
    destruct (assign_entry_id n e) as [n1 e']. specialize (IH n1).
    destruct (assign_entry_ids n1 rest) as [n2 rest']. simpl in *. lia.
Qed.

Lemma assign_entry_ids_length n rules :
  length (assign_entry_ids n rules).2 = length rules.
Proof.
  revert n. induction rules as [|e rest IH]; intros n; simpl; [done|].
  destruct (assign_entry_id n e) as [n1 e']. specialize (IH n1).
  destruct (assign_entry_ids n1 rest) as [n2 rest']. simpl in *. by rewrite IH.
Qed.

(** The entry at position [j] is given the identity whose number is the
    start of the list plus the number of entries without id before it. *)
Lemma assign_entry_ids_lookup n rules j e :
  rules !! j = Some e →
  (assign_entry_ids n rules).2 !! j
    = Some (assign_entry_id (n + count_unset (take j rules)) e).2.
Proof.
  revert n j. induction rules as [|e0 rest IH]; intros n j Hj; [done|].
  pose proof (assign_entry_id_counter n e0) as He0.
  destruct j as [|j]; cbn [assign_entry_ids take].
  - injection Hj as ->. rewrite count_unset_nil, Nat.add_0_r.
    destruct (assign_entry_id n e) as [n1 e'].
    by destruct (assign_entry_ids n1 rest).
  - rewrite count_unset_cons.
    destruct (assign_entry_id n e0) as [n1 e']. specialize (IH n1 j Hj).
    destruct (assign_entry_ids n1 rest) as [n2 rest']. simpl in He0, IH |- *.
    rewrite IH. do 3 f_equal. lia.
Qed.

Lemma entries_start_le n route : n ≤ entries_start n route.
Proof. unfold entries_start. case_decide; lia. Qed.

Lemma assign_route_ids_entries n route :
  rule_entries_list (assign_route_ids n route).2
    = (assign_entry_ids (entries_start n route) (rule_entries_list route)).2.
Proof.
  unfold assign_route_ids, entries_start.
  case_decide; by destruct (assign_entry_ids _ (rule_entries_list route)).
Qed.

Lemma assign_route_ids_counter n route :
  (assign_route_ids n route).1
    = entries_start n route + count_unset (rule_entries_list route).
Proof.
  rewrite <-assign_entry_ids_counter. unfold assign_route_ids, entries_start.
  case_decide; by destruct (assign_entry_ids _ (rule_entries_list route)).
Qed.

Lemma assign_ids_counter_le n routes : n ≤ (assign_ids n routes).1.
Proof.
  revert n. induction routes as [|r rest IH]; intros n; simpl; [done|].
  pose proof (assign_route_ids_counter n r) as Hr.
  pose proof (entries_start_le n r).
  destruct (assign_route_ids n r) as [n1 r']. specialize (IH n1).
  destruct (assign_ids n1 rest) as [n2 rest']. simpl in *. lia.
Qed.

Lemma flush_start_le n routes b1 b2 :
  b1 ≤ b2 → flush_start n routes b1 ≤ flush_start n routes b2.
Proof.
  intros Hb. unfold flush_start.
  rewrite <-(take_drop b1 (take b2 routes)), take_take, Nat.min_l by done.
  rewrite assign_ids_app. simpl. apply assign_ids_counter_le.
Qed.

Lemma flush_start_first n routes b : n ≤ flush_start n routes b.
Proof. apply assign_ids_counter_le. Qed.

Lemma flush_start_last n routes b :
  flush_start n routes b ≤ (assign_ids n routes).1.
Proof.
  unfold flush_start. rewrite <-(take_drop b routes) at 2.
  rewrite assign_ids_app. simpl. apply assign_ids_counter_le.
Qed.

Lemma flush_start_S n routes b r :
  routes !! b = Some r →
  flush_start n routes (S b) = (assign_route_ids (flush_start n routes b) r).1.
Proof.
  intros Hb. unfold flush_start.
  rewrite (take_S_r _ _ _ Hb), assign_ids_app. simpl.
  by destruct (assign_route_ids _ r).
Qed.

Lemma assign_ids_lookup_at n routes b r :
  routes !! b = Some r →
  (assign_ids n routes).2 !! b
    = Some (assign_route_ids (flush_start n routes b) r).2.
Proof.
  revert n b. induction routes as [|r0 rest IH]; intros n b Hb; [done|].
  unfold flush_start. destruct b as [|b]; cbn [assign_ids take].
  - injection Hb as ->. simpl.
    destruct (assign_route_ids n r) as [n1 r'].
    by destruct (assign_ids n1 rest).
  - destruct (assign_route_ids n r0) as [n1 r0']. specialize (IH n1 b Hb).
    unfold flush_start in IH.
    destruct (assign_ids n1 rest) as [n2 rest'].
    by destruct (assign_ids n1 (take b rest)).
Qed.

(** Every entry of the flushed routes is an entry of the unit of work at
    the same place, with the identity of its number if it had none. *)
Lemma assign_ids_entry n routes b r' j e' :
  (assign_ids n routes).2 !! b = Some r' →
  rule_entries_list r' !! j = Some e' →
  ∃ r e, routes !! b = Some r ∧ rule_entries_list r !! j = Some e ∧
    r' = (assign_route_ids (flush_start n routes b) r).2 ∧
    e' = (assign_entry_id (entries_start (flush_start n routes b) r
                           + count_unset (take j (rule_entries_list r))) e).2.
Proof.
  intros Hb Hj. destruct (routes !! b) as [r|] eqn:Hr.
  2: { apply lookup_ge_None in Hr. apply lookup_lt_Some in Hb.
       rewrite assign_ids_length in Hb. lia. }
  rewrite (assign_ids_lookup_at _ _ _ _ Hr) in Hb. injection Hb as <-.
  rewrite assign_route_ids_entries in Hj.
  destruct (rule_entries_list r !! j) as [e|] eqn:He.
  2: { apply lookup_ge_None in He. apply lookup_lt_Some in Hj.
       rewrite assign_entry_ids_length in Hj. lia. }
  rewrite (assign_entry_ids_lookup _ _ _ _ He) in Hj. injection Hj as <-.
  by exists r, e.
Qed.

Lemma entry_number_bounds n routes b r j e :
  routes !! b = Some r → rule_entries_list r !! j = Some e →
  entry_id e = SNone →
  flush_start n routes b
    ≤ entries_start (flush_start n routes b) r
      + count_unset (take j (rule_entries_list r))
    < flush_start n routes (S b).
Proof.
  intros Hb Hj He. rewrite (flush_start_S _ _ _ _ Hb), assign_route_ids_counter.
  pose proof (entries_start_le (flush_start n routes b) r).
  pose proof (count_unset_take_S _ _ _ Hj He).
  pose proof (count_unset_take (rule_entries_list r) (S j)). lia.
Qed.

(** Two entries without id never receive the same number. *)
Lemma entry_number_inj n routes b1 r1 j1 e1 b2 r2 j2 e2 :
  routes !! b1 = Some r1 → rule_entries_list r1 !! j1 = Some e1 →
  entry_id e1 = SNone →
  routes !! b2 = Some r2 → rule_entries_list r2 !! j2 = Some e2 →
  entry_id e2 = SNone →
  entries_start (flush_start n routes b1) r1
    + count_unset (take j1 (rule_entries_list r1))
  = entries_start (flush_start n routes b2) r2
    + count_unset (take j2 (rule_entries_list r2)) →
  b1 = b2 ∧ j1 = j2.
Proof.
  intros Hb1 Hj1 He1 Hb2 Hj2 He2 Heq.
  pose proof (entry_number_bounds n _ _ _ _ _ Hb1 Hj1 He1) as Hn1.
  pose proof (entry_number_bounds n _ _ _ _ _ Hb2 Hj2 He2) as Hn2.
  destruct (Nat.lt_trichotomy b1 b2) as [Hlt|[->|Hlt]].
  - pose proof (flush_start_le n routes (S b1) b2 ltac:(lia)). lia.
  - split; [done|]. replace r2 with r1 in * by congruence.
    pose proof (count_unset_take_S _ _ _ Hj1 He1).
    pose proof (count_unset_take_S _ _ _ Hj2 He2).
    destruct (Nat.lt_trichotomy j1 j2) as [Hj|[->|Hj]]; [|done|].
    + pose proof (count_unset_take_le (rule_entries_list r1) (S j1) j2 ltac:(lia)).
      lia.
    + pose proof (count_unset_take_le (rule_entries_list r1) (S j2) j1 ltac:(lia)).
      lia.
  - pose proof (flush_start_le n routes (S b2) b1 ltac:(lia)). lia.
Qed.

Lemma elem_of_all_entry_ids routes b r j e :
  routes !! b = Some r → rule_entries_list r !! j = Some e →
  entry_id e ∈ all_entry_ids routes.
Proof.
  intros Hb Hj. apply list_elem_of_bind. exists r. split.
  - by eapply list_elem_of_fmap_2, list_elem_of_lookup_2.
  - by eapply list_elem_of_lookup_2.
Qed.

(** C5, as the code has it: in an update of an existing route, an incoming
    record whose id is absent, None, or the id of no entry of the route's
    current collection gives a brand-new object, at an address beyond
    those of the current entries, made of exactly the record's fields and
    standing at the record's position in the route's new list.  The update
    returns when the route passes validation and the store accepts the
    commit, and then the persisted route holds at that position the entry
    under the supplied id if the record carries one, and, if it carries
    none, the entry with an identity the store handed out during this
    commit.  That identity is fresh provided the store's identities are
    pairwise distinct and none of those it has yet to hand out is in use
    in the session or supplied in the payload: it was the id of no entry
    before and of no record of the payload, and among the entries of the
    persisted routes this entry alone has it. *)
Theorem update_new_entry rid route_data s a route l i d :
  get rid s = (Ok (Some (a, route)), s) →
  route_data !! "rule_entries_list" = Some (Records l) →
  l !! i = Some d →
  record_id d = SNone ∨
    (∀ e, e ∈ rule_entries_list route → entry_id e ≠ record_id d) →
  let rules := rule_entries_list route in
  let st := reconcile_loop rules l in
  let reconciled_route :=
    mkRoute (route_attrs (update_model_route route route_data)) (target_entries st) in
  let work := reconciled a route route_data l s in
  (∃ t, target_filters st !! i = Some t ∧ length rules ≤ t ∧
        heap st !! t = Some (mkRuleEntry d)) ∧
  target_entries st !! i = Some (mkRuleEntry d) ∧
  pending work !! a = Some reconciled_route ∧
  (check_route reconciled_route = Ok tt →
   db_accepts (assign_ids (next_id s) (pending work)).2 = true →
   ∃ updated s', update rid route_data s = (Ok updated, s')) ∧
  (∀ updated s', update rid route_data s = (Ok updated, s') →
     committed s' !! a = Some updated ∧
     (record_id d ≠ SNone →
        rule_entries_list updated !! i = Some (mkRuleEntry d)) ∧
     (record_id d = SNone →
        ∃ m, next_id s ≤ m < next_id s' ∧
          rule_entries_list updated !! i
            = Some (mkRuleEntry (<["id" := SStr (new_id m)]> d)) ∧
          (Inj (=) (=) new_id →
           unused_from (next_id s) (all_entry_ids (pending s)) →
           unused_from (next_id s) (record_id <$> l) →
           (SStr (new_id m) ∉ all_entry_ids (pending s)) ∧
           (SStr (new_id m) ∉ record_id <$> l) ∧
           ∀ b r j e', committed s' !! b = Some r →
             rule_entries_list r !! j = Some e' →
             entry_id e' = SStr (new_id m) → b = a ∧ j = i))).
Proof.
  intros Hget Hkey Hi Hnew rules st reconciled_route work.
  pose proof (get_found_lookup _ _ _ _ Hget) as [Ha _].
  assert (update rid route_data s = finish a reconciled_route work) as Hrun.
  { rewrite (update_found _ _ _ _ _ Hget), Hkey.
    unfold filters_data_of, truthy.
    destruct (decide (l = [])) as [->|Hne].
    - by rewrite bool_decide_eq_true_2.
    - by rewrite bool_decide_eq_false_2. }
  assert (pending work !! a = Some reconciled_route) as Hpending.
  { simpl. apply list_lookup_insert_eq. by eapply lookup_lt_Some. }
  destruct (reconcile_record_target rules l i d Hi)
    as (t & Ht & Htarget & [(Hid & Hcur & _)|(_ & Hlen & Hheap)]).
  { apply current_filters_Some in Hcur as (e0 & He0 & Hid0).
    destruct Hnew as [?|Hnew]; [done|].
    destruct (Hnew e0); [by eapply list_elem_of_lookup_2|done]. }
  fold st in Ht, Htarget, Hheap. rewrite Hheap in Htarget.
  split; [by exists t|]. split; [done|]. split; [done|].
  pose proof (finish_cases a reconciled_route work) as Hf.
  split.
  - intros Hcheck Haccepts. rewrite Hrun. rewrite Hcheck in Hf.
    assert (is_Some (flush work)) as [s2 Hflush].
    { unfold flush. change (next_id work) with (next_id s).
      destruct (assign_ids (next_id s) (pending work)) as [n routes].
      simpl in Haccepts. rewrite Haccepts. by eexists. }
    rewrite Hflush in Hf. eauto.
  - intros updated s'. rewrite Hrun.
    destruct (check_route reconciled_route) as [[]|e]; [|rewrite Hf; congruence].
    destruct (flush work) as [s2|] eqn:Hflush; rewrite Hf; [|congruence].
    intros [= <- <-]. apply flush_Some in Hflush as ->.
    change (next_id work) with (next_id s).
    cbn [pending made_durable committed next_id].
    rewrite (assign_ids_lookup_at _ _ _ _ Hpending). cbn [default from_option id].
    set (start := flush_start (next_id s) (pending work) a).
    set (m := entries_start start reconciled_route
              + count_unset (take i (target_entries st))).
    assert (rule_entries_list (assign_route_ids start reconciled_route).2 !! i
              = Some (assign_entry_id m (mkRuleEntry d)).2) as Hentry.
    { rewrite assign_route_ids_entries.
      by apply assign_entry_ids_lookup. }
    split; [done|]. split.
    + intros Hid. rewrite Hentry. unfold assign_entry_id.
      by rewrite decide_False.
    + intros Hid. exists m.
      pose proof (entry_number_bounds (next_id s) (pending work) a
                    reconciled_route i (mkRuleEntry d) Hpending Htarget Hid)
        as Hbounds.
      change (start ≤ m < flush_start (next_id s) (pending work) (S a)) in Hbounds.
      pose proof (flush_start_first (next_id s) (pending work) a) as Hfirst.
      pose proof (flush_start_last (next_id s) (pending work) (S a)) as Hlast.
      fold start in Hfirst.
      split; [lia|]. split.
      { rewrite Hentry. unfold assign_entry_id. by rewrite decide_True. }
      intros Hinj Hstore Hpayload.
      split; [apply Hstore; lia|]. split; [apply Hpayload; lia|].
      intros b r j e' Hb Hj Hsame.
      destruct (assign_ids_entry _ _ _ _ _ _ Hb Hj)
        as (r0 & e0 & Hb0 & Hj0 & _ & ->).
      unfold assign_entry_id in Hsame.
      destruct (decide (entry_id e0 = SNone)) as [Hnone|Hset]; simpl in Hsame.
      * unfold entry_id, entry_getattr in Hsame. simpl in Hsame.
        rewrite lookup_insert_eq in Hsame. simpl in Hsame.
        injection Hsame as Hsame. apply Hinj in Hsame.
        apply (entry_number_inj (next_id s) (pending work)
                 b r0 j e0 a reconciled_route i (mkRuleEntry d)); try done.
      * exfalso. destruct (decide (b = a)) as [->|Hne].
        -- replace r0 with reconciled_route in * by congruence.
           apply (Hpayload m); [lia|]. rewrite <-Hsame.
           rewrite <-(reconcile_target_ids rules l). fold st.
           by eapply list_elem_of_fmap_2, list_elem_of_lookup_2.
        -- simpl in Hb0. rewrite list_lookup_insert_ne in Hb0 by done.
           apply (Hstore m); [lia|]. rewrite <-Hsame.
           by eapply elem_of_all_entry_ids.
Qed.

End FreshIdentity.

Lemma reference_new_id_inj m :
  Inj (=) (=) (@new_id (reference_collaborators m)).
Proof.
  intros k1 k2 Heq. simpl in Heq. injection Heq as Heq.
  by apply (inj pretty).
Qed.

Lemma update_new_entry_witness :
  let d : gmap string scalar := {[ "x" := SStr "c" ]} in
  let l : list (gmap string scalar) :=
    [ {[ "id" := SStr "A"; "x" := SStr "9" ]}; d ] in
  ∃ updated s' m,
    @update (reference_collaborators outbound_method) "r1"
      {[ "rule_entries_list" := Records l ]} sample_session = (Ok updated, s') ∧
    committed s' !! 0 = Some updated ∧
    rule_entries_list updated !! 1
      = Some (mkRuleEntry
                (<["id" := SStr (@new_id (reference_collaborators outbound_method) m)]> d)) ∧
    (SStr (@new_id (reference_collaborators outbound_method) m)
       ∉ all_entry_ids (pending sample_session)) ∧
    (∀ b r j e', committed s' !! b = Some r →
       rule_entries_list r !! j = Some e' →
       entry_id e' = SStr (@new_id (reference_collaborators outbound_method) m) →
       b = 0 ∧ j = 1).
Proof.
  intros d l.
  destruct (@update_new_entry (reference_collaborators outbound_method)
              "r1" {[ "rule_entries_list" := Records l ]} sample_session
              0 sample_route l 1 d)
    as (_ & _ & _ & Hreturns & Hpersisted).
  - vm_compute. reflexivity.
  - vm_compute. reflexivity.
  - reflexivity.
  - left. vm_compute. reflexivity.
  - destruct Hreturns as (updated & s' & Hupdate).
    + vm_compute. reflexivity.
    + vm_compute. reflexivity.
    + destruct (Hpersisted updated s' Hupdate) as (Hcommitted & _ & Hfresh).
      destruct Hfresh as (m & _ & Hentry & Hunique); [vm_compute; reflexivity|].
      destruct Hunique as (Hbefore & _ & Honly).
      * apply reference_new_id_inj.
      * intros k _ Hin. vm_compute in Hin.
        apply elem_of_cons in Hin as [Hin|Hin]; [discriminate|].
        apply list_elem_of_singleton in Hin. discriminate.
      * intros k _ Hin. vm_compute in Hin.
        apply elem_of_cons in Hin as [Hin|Hin]; [discriminate|].
        apply list_elem_of_singleton in Hin. discriminate.
      * exists updated, s', m. split_and!; done.
Defined.

(** Why the proviso on the payload: a record that supplies the identity the
    store is about to hand out is persisted under it next to the entry
    that receives it. *)
Example update_supplied_identity_collides :
  ∃ updated,
    @update (reference_collaborators outbound_method) "r1"
      {[ "rule_entries_list" :=
           Records [ {[ "x" := SStr "c" ]};
                     {[ "id" := SStr "generated-0" ]} ] ]}
      sample_session
    = (Ok updated, mkSession [updated] [updated] [] 1) ∧
    entry_id <$> rule_entries_list updated
      = [SStr "generated-0"; SStr "generated-0"].
Proof. eexists. split; vm_compute; reflexivity. Qed.

Section Validation.
Context `{Collaborators}.

(** *** Validation of the host pattern *)

Lemma outbound_flag_read route :
  outbound_flag route = true → is_outbound_read route = true.
Proof. unfold outbound_flag, is_outbound_read. by destruct is_outbound. Qed.

(** An outbound route whose host pattern does not compile is rejected with
    the pattern in the message, by check_route and hence by create, which
    leaves the session alone, and by update, which commits nothing. *)
Lemma check_route_rejects_host route pattern exc :
  outbound_flag route = true →
  route_getattr route "host_endpoint" = Scalar (SStr pattern) →
  re_compile pattern = Some exc →
  check_route route
    = Raise (InvalidRouteConfiguration
               ("Invalid host pattern " +:+ pattern +:+ ": " +:+ exc)).
Proof.
  intros Hflag%outbound_flag_read Hhost Hcompile.
  unfold check_route, check_host. by rewrite Hflag, Hhost, Hcompile.
Qed.

Lemma create_rejects_invalid route_data store s route e :
  new_route route_data = Ok route → check_route route = Raise e →
  create route_data store s = (Raise e, s).
Proof.
  intros Hnew Hcheck. unfold create, lift.
  unfold mbind at 1. unfold M_bind at 1. rewrite Hnew.
  unfold mbind at 1. unfold M_bind at 1. by rewrite Hcheck.
Qed.

Lemma finish_rejects_invalid a route s e :
  check_route route = Raise e → finish a route s = (Raise e, s).
Proof. intros Hcheck. pose proof (finish_cases a route s). by rewrite Hcheck in *. Qed.

(** update on an existing route whose validation fails raises the error of
    check_route and leaves the unit of work as the merge, and the
    reconciliation if there was one, made it: nothing is committed and
    nothing is rolled back. *)
Lemma update_rejects_invalid rid route_data s a route e :
  get rid s = (Ok (Some (a, route)), s) →
  route_data !! "rule_entries_list" = None →
  check_route (update_model_route route route_data) = Raise e →
  update rid route_data s = (Raise e, merged a route route_data s) ∧
  committed (merged a route route_data s) = committed s ∧
  pending (merged a route route_data s) !! a
    = Some (update_model_route route route_data).
Proof.
  intros Hget Hkey Hcheck.
  rewrite (update_found _ _ _ _ _ Hget), Hkey.
  split; [by apply finish_rejects_invalid|]. split; [done|].
  simpl. apply list_lookup_insert_eq.
  apply get_found_lookup in Hget as [Ha _]. by eapply lookup_lt_Some.
Qed.

Lemma update_rejects_invalid_rules rid route_data s a route v l e :
  get rid s = (Ok (Some (a, route)), s) →
  route_data !! "rule_entries_list" = Some v →
  filters_data_of v = Ok l →
  check_route
    (mkRoute (route_attrs (update_model_route route route_data))
             (target_entries (reconcile_loop (rule_entries_list route) l)))
    = Raise e →
  update rid route_data s = (Raise e, reconciled a route route_data l s) ∧
  committed (reconciled a route route_data l s) = committed s.
Proof.
  intros Hget Hkey Hl Hcheck.
  rewrite (update_found _ _ _ _ _ Hget), Hkey, Hl.
  split; [by apply finish_rejects_invalid|done].
Qed.

(** When the class exposes [is_outbound] as a method, the test of
    check_route is on the method object and the host pattern of every
    route is compiled, whatever the method would return. *)
Lemma check_host_method body route pattern exc :
  is_outbound = Method body →
  route_getattr route "host_endpoint" = Scalar (SStr pattern) →
  re_compile pattern = Some exc →
  check_route route
    = Raise (InvalidRouteConfiguration
               ("Invalid host pattern " +:+ pattern +:+ ": " +:+ exc)).
Proof.
  intros Hm Hhost Hcompile.
  unfold check_route, check_host, is_outbound_read.
  by rewrite Hm, Hhost, Hcompile.
Qed.

(** When it is a plain attribute, get_all_by_type cannot return a route. *)
Lemma filter_by_type_column flag routes :
  is_outbound = Column → routes ≠ [] → filter_by_type flag routes = Raise TypeError.
Proof.
  intros Hc Hne. destruct routes as [|route rest]; [done|].
  simpl. unfold is_outbound_call. by rewrite Hc.
Qed.

End Validation.

(** *** Where the code departs from its contract *)

(** C9: with [is_outbound] the method that get_all_by_type calls, an
    inbound route, which that method reports as not outbound and which
    get_all_by_type lists among the inbound ones, still has its host
    pattern compiled by check_route: the unparsable pattern is rejected
    with InvalidRouteConfiguration, by check_route and by create. *)
Theorem check_route_compiles_inbound_host :
  @outbound_flag (reference_collaborators outbound_method)
     inbound_unparsable_route = false ∧
  @filter_by_type (reference_collaborators outbound_method) false
     [sample_route; inbound_unparsable_route] = Ok [inbound_unparsable_route] ∧
  @check_route (reference_collaborators outbound_method) inbound_unparsable_route
    = Raise (InvalidRouteConfiguration
               "Invalid host pattern (: missing ), unterminated subpattern") ∧
  @create (reference_collaborators outbound_method)
     (route_attrs inbound_unparsable_route) true sample_session
    = (Raise (InvalidRouteConfiguration
                "Invalid host pattern (: missing ), unterminated subpattern"),
       sample_session).
Proof. split_and!; vm_compute; reflexivity. Qed.

(** C2: an update of the sample route that fails validation raises
    InvalidRouteConfiguration without a rollback: nothing is committed by
    the call, but the session keeps the merged fields, the emptied list of
    rule entries and the marks for deletion, and the commit that get_all
    issues next makes the invalid route durable, without its rule
    entries. *)
Theorem update_invalid_then_get_all :
  @update (reference_collaborators outbound_method) "r1" invalid_update_data
     sample_session
    = (Raise (InvalidRouteConfiguration
                "Invalid host pattern (: missing ), unterminated subpattern"),
       mkSession [sample_route] [invalid_sample_route]
                 (rule_entries_list sample_route) 0) ∧
  @get_all (reference_collaborators outbound_method)
     (mkSession [sample_route] [invalid_sample_route]
                (rule_entries_list sample_route) 0)
    = (Ok [invalid_sample_route],
       mkSession [invalid_sample_route] [invalid_sample_route] [] 0).
Proof. split; vm_compute; reflexivity. Qed.

(** C3: in the session that a failed validation leaves without a rollback,
    an update of the same route whose payload has no rule-entries key
    passes validation and commits the emptied list that the failed update
    left in the unit of work: the persisted rule entries of the route go
    from A and B to none, through an update that omits the key. *)
Theorem update_without_key_after_failed_update :
  let s1 := mkSession [sample_route] [invalid_sample_route]
                      (rule_entries_list sample_route) 0 in
  @update (reference_collaborators outbound_method) "r1" invalid_update_data
     sample_session
    = (Raise (InvalidRouteConfiguration
                "Invalid host pattern (: missing ), unterminated subpattern"),
       s1) ∧
  host_update_data !! "rule_entries_list" = None ∧
  rule_entries_list <$> committed s1
    = [[sample_entry "A" "1"; sample_entry "B" "2"]] ∧
  ∃ updated,
    @update (reference_collaborators outbound_method) "r1" host_update_data s1
      = (Ok updated, mkSession [updated] [updated] [] 0) ∧
    route_id updated = Scalar (SStr "r1") ∧
    rule_entries_list updated = [].
Proof.
  split_and!; [vm_compute; reflexivity|reflexivity|reflexivity|].
  eexists. split_and!; [vm_compute; reflexivity|reflexivity|reflexivity].
Qed.

(** * Further properties of the operations *)

Section Cascade.
Context `{Collaborators}.

(** *** The validation cascade *)

Lemma check_filter_errors fltr e :
  check_filter fltr = Raise e → ∃ msg, e = InvalidRouteConfiguration msg.
Proof.
  unfold check_filter, check_expression, check_operations, mbind, result_bind.
  repeat case_match; intros; simplify_eq; eauto.
Qed.

Lemma check_filters_Ok rules :
  check_filters rules = Ok tt ↔ Forall (λ f, check_filter f = Ok tt) rules.
Proof.
  induction rules as [|f rest IH]; simpl; [by split|].
  unfold mbind, result_bind. rewrite Forall_cons, <-IH.
  destruct (check_filter f) as [[]|e]; [tauto|]. split; [done|]. by intros [? _].
Qed.

Lemma check_filters_first_failure pre bad post e :
  Forall (λ f, check_filter f = Ok tt) pre →
  check_filter bad = Raise e →
  check_filters (pre ++ bad :: post) = Raise e.
Proof.
  intros Hpre Hbad. induction Hpre as [|f pre Hf _ IH]; simpl.
  - unfold mbind, result_bind. by rewrite Hbad.
  - unfold mbind, result_bind. by rewrite Hf.
Qed.

Lemma check_filters_errors rules e :
  check_filters rules = Raise e → ∃ msg, e = InvalidRouteConfiguration msg.
Proof.
  induction rules as [|f rest IH]; simpl; [done|].
  unfold mbind, result_bind.
  destruct (check_filter f) as [[]|e0] eqn:Hf; [done|].
  intros [= <-]. by eapply check_filter_errors.
Qed.

(** check_route stops at the first failure: an error of the host pattern
    is raised whatever the rule entries are, and otherwise the error is
    that of the first rule entry, in the order of the collection, that
    check_filter rejects, whatever follows it. *)
Theorem check_route_first_failure route e :
  (check_host route = Raise e → check_route route = Raise e) ∧
  (∀ pre bad post,
     check_host route = Ok tt →
     rule_entries_list route = pre ++ bad :: post →
     Forall (λ f, check_filter f = Ok tt) pre →
     check_filter bad = Raise e →
     check_route route = Raise e).
Proof.
  split.
  - intros Hhost. unfold check_route, mbind, result_bind. by rewrite Hhost.
  - intros pre bad post Hhost Hrules Hpre Hbad.
    unfold check_route, mbind, result_bind. rewrite Hhost, Hrules.
    by apply check_filters_first_failure.
Qed.

(** check_route accepts a route exactly when the host check passes and
    check_filter accepts every rule entry of the route. *)
Theorem check_route_accepts route :
  check_route route = Ok tt ↔
  check_host route = Ok tt ∧
  Forall (λ f, check_filter f = Ok tt) (rule_entries_list route).
Proof.
  unfold check_route, mbind, result_bind. rewrite <-check_filters_Ok.
  destruct (check_host route) as [[]|e]; [tauto|]. split; [done|]. by intros [? _].
Qed.

(** check_route raises a TypeError exactly when it reads the route as
    outbound and its host_endpoint is not a string, as when it was never
    set: re.compile then fails with an error that the handler of re.error
    does not catch, and no rule entry is looked at. *)
Theorem check_route_type_error route :
  check_route route = Raise TypeError ↔
  is_outbound_read route = true ∧
  ∀ pattern, route_getattr route "host_endpoint" ≠ Scalar (SStr pattern).
Proof.
  unfold check_route, check_host, mbind, result_bind. split.
  - destruct (is_outbound_read route).
    + destruct (route_getattr route "host_endpoint") as [[| |pattern]|l];
        try (intros _; split; [done|]; intros ?; discriminate).
      destruct (re_compile pattern); [done|].
      intros (msg & ?)%check_filters_errors. done.
    + intros (msg & ?)%check_filters_errors. done.
  - intros [-> Hhost].
    destruct (route_getattr route "host_endpoint") as [[| |pattern]|l]; try done.
    by destruct (Hhost pattern).
Qed.

Lemma check_route_errors route e :
  check_route route = Raise e → validation_error e.
Proof.
  unfold check_route, check_host, mbind, result_bind, validation_error.
  repeat case_match; intros; simplify_eq; eauto;
    right; by eapply check_filters_errors.
Qed.

Lemma new_route_errors route_data e :
  new_route route_data = Raise e → e = TypeError.
Proof.
  unfold new_route, new_rule_entries, mbind, result_bind, mret, result_ret.
  repeat case_match; intros; by simplify_eq.
Qed.

Lemma validate_errors route_data e :
  validate route_data = Raise e → validation_error e.
Proof.
  unfold validate, mbind, result_bind, mret, result_ret.
  destruct (new_route route_data) as [route|e0] eqn:Hnew.
  - destruct (check_route route) as [[]|e1] eqn:Hcheck; [done|].
    intros [= <-]. by eapply check_route_errors.
  - intros [= <-]. left. by eapply new_route_errors.
Qed.

(** create rejects a payload that has, among its rule entries, one whose
    expression snapshot is set and does not build, when the host check
    passes and the rule entries before it are accepted: it raises
    InvalidRouteConfiguration with the builder's message after "Invalid
    expression: ", whatever the operations of that entry and the entries
    after it are, and leaves the session as it was, stored or not. *)
Theorem create_rejects_malformed_expression route_data pre d post exc store s :
  route_data !! "rule_entries_list" = Some (Records (pre ++ d :: post)) →
  check_host (mkRoute (base.delete "rule_entries_list" route_data)
                      (mkRuleEntry <$> pre ++ d :: post)) = Ok tt →
  Forall (λ r, check_filter (mkRuleEntry r) = Ok tt) pre →
  truthy_scalar (default SNone (d !! "expression_snapshot")) = true →
  expression_build (default SNone (d !! "expression_snapshot")) = Some exc →
  create route_data store s
    = (Raise (InvalidRouteConfiguration ("Invalid expression: " +:+ exc)), s).
Proof.
  intros Hkey Hhost Hpre Htruthy Hbuild.
  apply create_rejects_invalid with
    (route := mkRoute (base.delete "rule_entries_list" route_data)
                      (mkRuleEntry <$> pre ++ d :: post)).
  - unfold new_route, new_rule_entries. by rewrite Hkey.
  - unfold check_route, mbind, result_bind. rewrite Hhost. simpl.
    rewrite fmap_app. apply check_filters_first_failure.
    + by apply Forall_fmap.
    + unfold check_filter, check_expression, entry_getattr. simpl.
      by rewrite Htruthy, Hbuild.
Qed.

End Cascade.

Section Durability.
Context `{Collaborators}.

(** *** Commits, rollbacks and what a failure leaves *)

Lemma validation_error_not_storage e : validation_error e → e ≠ StorageError.
Proof. intros [->|[msg ->]]; done. Qed.

Lemma filters_data_of_errors v e :
  filters_data_of v = Raise e → e = TypeError ∨ e = AttributeError.
Proof.
  unfold filters_data_of.
  destruct (if truthy v then v else Records []) as [[]|l]; intros; simplify_eq; auto.
Qed.

Lemma create_invalid route_data store s e :
  validate route_data = Raise e → create route_data store s = (Raise e, s).
Proof.
  unfold validate, create, lift, mbind, result_bind, M_bind, mret, result_ret.
  destruct (new_route route_data) as [route|e0]; [|by intros [= ->]].
  destruct (check_route route) as [[]|e1]; [done|]. by intros [= ->].
Qed.

Lemma flush_settled s s2 : flush s = Some s2 → settled (made_durable s2).
Proof.
  intros ->%flush_Some. split_and!; [done|done|]. simpl.
  apply assign_ids_all_identified.
Qed.

Lemma flush_accepts s s2 : flush s = Some s2 → db_accepts (pending s2) = true.
Proof.
  unfold flush. destruct (assign_ids (next_id s) (pending s)) as [n routes].
  destruct (db_accepts routes) eqn:Hacc; [|done]. by intros [= <-].
Qed.

Lemma flush_None s :
  flush s = None ↔ db_accepts (assign_ids (next_id s) (pending s)).2 = false.
Proof.
  unfold flush. destruct (assign_ids (next_id s) (pending s)) as [n routes].
  simpl. by destruct (db_accepts routes).
Qed.

Lemma session_commit_result s :
  session_commit s =
    match flush s with
    | Some s2 => (Ok tt, made_durable s2)
    | None => (Raise StorageError, s)
    end.
Proof. unfold session_commit. by destruct (flush s). Qed.

Lemma flush_again routes n committed0 :
  Forall identified routes → db_accepts routes = true →
  flush (mkSession committed0 routes [] n) = Some (mkSession committed0 routes [] n).
Proof.
  intros Hident Hacc. unfold flush; simpl.
  by rewrite assign_ids_identified, Hacc.
Qed.

(** What create does once the payload is known to pass or to fail. *)
Lemma create_cases route_data (store : bool) s :
  match validate route_data with
  | Raise e => create route_data store s = (Raise e, s)
  | Ok route =>
      if store then
        match flush (set_pending (pending s ++ [route]) s) with
        | Some s2 =>
            create route_data store s =
              (Ok (default route (pending s2 !! length (pending s))),
               made_durable s2)
        | None => create route_data store s = (Raise StorageError, rolled_back s)
        end
      else create route_data store s = (Ok route, s)
  end.
Proof.
  destruct (validate route_data) as [route|e] eqn:Hvalid.
  - destruct store.
    + rewrite (create_stored _ _ _ Hvalid). by destruct (flush _).
    + by rewrite create_unstored, Hvalid.
  - by apply create_invalid.
Qed.

(** What update does on an existing route, by the state [s1] the merge and
    the reconciliation leave, with [r1] the route at its address. *)
Lemma update_found_cases rid route_data s a route :
  get rid s = (Ok (Some (a, route)), s) →
  ∃ s1 r1, committed s1 = committed s ∧ next_id s1 = next_id s ∧
    pending s1 = <[a := r1]> (pending s) ∧
    route_attrs r1 = route_attrs (update_model_route route route_data) ∧
    ((∃ e, update rid route_data s = (Raise e, s1) ∧ e ≠ StorageError) ∨
     (flush s1 = None ∧
        update rid route_data s = (Raise StorageError, rolled_back s)) ∨
     (∃ s2 updated, flush s1 = Some s2 ∧
        update rid route_data s = (Ok updated, made_durable s2) ∧
        pending s2 !! a = Some updated)).
Proof.
  intros Hget. pose proof (get_found_lookup _ _ _ _ Hget) as [Ha _].
  assert (a < length (pending s)) as Hlt by by eapply lookup_lt_Some.
  rewrite (update_found _ _ _ _ _ Hget).
  assert (∀ r s1, committed s1 = committed s → next_id s1 = next_id s →
            pending s1 = <[a := r]> (pending s) →
            route_attrs r = route_attrs (update_model_route route route_data) →
            ∃ s1' r1, committed s1' = committed s ∧ next_id s1' = next_id s ∧
              pending s1' = <[a := r1]> (pending s) ∧
              route_attrs r1 = route_attrs (update_model_route route route_data) ∧
              ((∃ e, finish a r s1 = (Raise e, s1') ∧ e ≠ StorageError) ∨
               (flush s1' = None ∧
                  finish a r s1 = (Raise StorageError, rolled_back s)) ∨
               (∃ s2 updated, flush s1' = Some s2 ∧
                  finish a r s1 = (Ok updated, made_durable s2) ∧
                  pending s2 !! a = Some updated))) as Hfinish.
  { intros r s1 Hc Hn Hp Hattrs. exists s1, r. split_and!; try done.
    assert (pending s1 !! a = Some r) as Hpa.
    { rewrite Hp. by apply list_lookup_insert_eq. }
    pose proof (finish_cases a r s1) as Hf.
    destruct (check_route r) as [[]|e] eqn:Hcheck.
    - destruct (flush s1) as [s2|] eqn:Hflush.
      + right. right. exists s2. eexists. split; [done|]. split; [exact Hf|].
        pose proof (flush_Some _ _ Hflush) as ->. simpl.
        destruct (assign_ids_lookup (next_id s1) _ _ _ Hpa) as [m Hm].
        by rewrite Hm.
      + right. left. split; [done|]. rewrite Hf. unfold rolled_back.
        by rewrite Hc, Hn.
    - left. exists e. split; [done|].
      by apply validation_error_not_storage, (check_route_errors r). }
  destruct (route_data !! "rule_entries_list") as [v|].
  - destruct (filters_data_of v) as [l|e] eqn:Hv.
    + by apply Hfinish.
    + exists (merged a route route_data s), (update_model_route route route_data).
      split_and!; try done.
      left. exists e. split; [done|].
      by destruct (filters_data_of_errors _ _ Hv) as [->| ->].
  - by apply Hfinish.
Qed.

(** create rolls back when the store rejects the new route: it raises
    StorageError and the unit of work is reset to the committed state, so
    that every uncommitted change of the session is dropped with the new
    route; and a StorageError of create always comes with that rollback. *)
Theorem create_storage_error_rolled_back route_data s :
  (∀ route, validate route_data = Ok route →
     db_accepts (assign_ids (next_id s) (pending s ++ [route])).2 = false →
     create route_data true s = (Raise StorageError, rolled_back s)) ∧
  (∀ store s', create route_data store s = (Raise StorageError, s') →
     store = true ∧ committed s' = committed s ∧ pending s' = committed s ∧
     deleted s' = []).
Proof.
  pose proof (create_cases route_data) as Hcases. split.
  - intros route Hvalid Hrej. specialize (Hcases true s).
    rewrite Hvalid in Hcases.
    by rewrite (proj2 (flush_None (set_pending (pending s ++ [route]) s)) Hrej)
      in Hcases.
  - intros store s' Hraise. specialize (Hcases store s).
    destruct (validate route_data) as [route|e] eqn:Hvalid.
    + destruct store; [|congruence].
      destruct (flush _); rewrite Hcases in Hraise; [done|].
      by injection Hraise as <-.
    + rewrite Hcases in Hraise. injection Hraise as -> <-.
      by destruct (validation_error_not_storage _ (validate_errors _ _ Hvalid)).
Qed.


End Durability.

Section Composition.
Context `{Collaborators}.

(** *** What the operations leave to one another *)

Lemma delete_found rid s a route :
  get rid s = (Ok (Some (a, route)), s) →
  delete rid s = session_commit (set_pending (base.delete a (pending s)) s).
Proof.
  intros Hget%get_found. unfold delete, get.
  unfold mbind at 1. unfold M_bind at 1. by rewrite Hget.
Qed.

Lemma delete_missing rid s :
  get rid s = (Ok None, s) → delete rid s = (Raise (EntityNotFound rid), s).
Proof.
  intros Hget%get_missing. unfold delete, get, raise.
  unfold mbind, M_bind. by rewrite Hget.
Qed.

Lemma get_all_result s :
  get_all s =
    match flush s with
    | Some s2 => (Ok (pending s2), made_durable s2)
    | None => (Raise StorageError, s)
    end.
Proof.
  unfold get_all, query_all, mbind, M_bind. rewrite session_commit_result.
  by destruct (flush s).
Qed.

(** An operation that raises has not changed the committed state: create,
    update, delete, replace and get_all make their writes durable only
    when they return. *)
Theorem failure_keeps_committed s e s' :
  (∀ route_data store,
     create route_data store s = (Raise e, s') → committed s' = committed s) ∧
  (∀ rid route_data,
     update rid route_data s = (Raise e, s') → committed s' = committed s) ∧
  (∀ rid, delete rid s = (Raise e, s') → committed s' = committed s) ∧
  (∀ routes_data,
     replace routes_data s = (Raise e, s') → committed s' = committed s) ∧
  (get_all s = (Raise e, s') → committed s' = committed s).
Proof.
  assert (∀ route_data store,
    create route_data store s = (Raise e, s') → committed s' = committed s)
    as Hcreate.
  { intros route_data store Hraise.
    pose proof (create_cases route_data store s) as Hcases.
    destruct (validate route_data) as [route|e0].
    - destruct store; [|congruence].
      destruct (flush _); rewrite Hcases in Hraise; [done|].
      by injection Hraise as _ <-.
    - rewrite Hcases in Hraise. by injection Hraise as _ <-. }
  split_and!; [done| | | |].
  - intros rid route_data Hraise.
    destruct (get_cases rid s) as [Hget|(a & route & Hget)].
    + rewrite (update_missing _ _ _ Hget) in Hraise. by eapply Hcreate.
    + destruct (update_found_cases rid route_data s a route Hget)
        as (s1 & r1 & Hc & _ & _ & _ &
            [(e0 & He & _)|[[_ He]|(s2 & updated & _ & He & _)]]);
        rewrite He in Hraise; [| |done].
      * by injection Hraise as _ <-.
      * by injection Hraise as _ <-.
  - intros rid Hraise.
    destruct (get_cases rid s) as [Hget|(a & route & Hget)].
    + rewrite (delete_missing _ _ Hget) in Hraise. by injection Hraise as _ <-.
    + rewrite (delete_found _ _ _ _ Hget), session_commit_result in Hraise.
      destruct (flush _); [done|]. by injection Hraise as _ <-.
  - intros routes_data Hraise.
    pose proof (replace_cases routes_data s) as Hcases.
    destruct (validate_all routes_data) as [routes|e0].
    + destruct (db_accepts [] && db_accepts _); rewrite Hcases in Hraise; [done|].
      by injection Hraise as _ <-.
    + rewrite Hcases in Hraise. by injection Hraise as _ <-.
  - intros Hraise. rewrite get_all_result in Hraise.
    destruct (flush s); [done|]. by injection Hraise as _ <-.
Qed.

(** An operation that commits leaves the session settled when it returns:
    after a successful stored create, update, delete or get_all the unit of
    work is the committed state, no deletion is waiting and every row has
    its identity. *)
Theorem success_settles s s' :
  (∀ route_data created,
     create route_data true s = (Ok created, s') → settled s') ∧
  (∀ rid route_data updated,
     update rid route_data s = (Ok updated, s') → settled s') ∧
  (∀ rid, delete rid s = (Ok tt, s') → settled s') ∧
  (∀ routes, get_all s = (Ok routes, s') → settled s').
Proof.
  assert (∀ route_data created,
    create route_data true s = (Ok created, s') → settled s') as Hcreate.
  { intros route_data created Hok.
    pose proof (create_cases route_data true s) as Hcases.
    destruct (validate route_data) as [route|e0]; [|congruence].
    destruct (flush _) as [s2|] eqn:Hflush; rewrite Hcases in Hok; [|done].
    injection Hok as _ <-. by eapply flush_settled. }
  split_and!; [done| | |].
  - intros rid route_data updated Hok.
    destruct (get_cases rid s) as [Hget|(a & route & Hget)].
    + rewrite (update_missing _ _ _ Hget) in Hok. by eapply Hcreate.
    + destruct (update_found_cases rid route_data s a route Hget)
        as (s1 & r1 & _ & _ & _ & _ &
            [(e0 & He & _)|[[_ He]|(s2 & updated' & Hflush & He & _)]]);
        rewrite He in Hok; [done|done|].
      injection Hok as _ <-. by eapply flush_settled.
  - intros rid Hok.
    destruct (get_cases rid s) as [Hget|(a & route & Hget)].
    + by rewrite (delete_missing _ _ Hget) in Hok.
    + rewrite (delete_found _ _ _ _ Hget), session_commit_result in Hok.
      destruct (flush _) as [s2|] eqn:Hflush; [|done].
      injection Hok as <-. by eapply flush_settled.
  - intros routes Hok. rewrite get_all_result in Hok.
    destruct (flush s) as [s2|] eqn:Hflush; [|done].
    injection Hok as _ <-. by eapply flush_settled.
Qed.

(** get_all commits before it reads: when it returns, the routes it
    returns are the unit of work as flushed, they are the committed state,
    and a second get_all returns the same routes and leaves the session as
    it is. *)
Theorem get_all_commits_pending s routes s' :
  get_all s = (Ok routes, s') →
  routes = (assign_ids (next_id s) (pending s)).2 ∧
  committed s' = routes ∧ pending s' = routes ∧ deleted s' = [] ∧
  get_all s' = (Ok routes, s').
Proof.
  rewrite get_all_result.
  destruct (flush s) as [s2|] eqn:Hflush; [|done].
  intros [= <- <-].
  pose proof (flush_accepts _ _ Hflush) as Hacc.
  pose proof (flush_Some _ _ Hflush) as ->. simpl in *.
  split_and!; try done.
  rewrite get_all_result. unfold made_durable; simpl.
  by rewrite flush_again by (done || apply assign_ids_all_identified).
Qed.

Lemma filter_by_type_method body flag routes :
  is_outbound = Method body →
  filter_by_type flag routes = Ok (filter (λ r, outbound_flag r = flag) routes).
Proof.
  intros Hm.
  assert (∀ r, outbound_flag r = body r) as Hflag.
  { intros r. unfold outbound_flag. by rewrite Hm. }
  induction routes as [|route rest IH]; simpl; [done|].
  unfold is_outbound_call, mbind, result_bind, mret, result_ret.
  rewrite Hm, IH, filter_cons, (Hflag route).
  destruct (body route), flag; reflexivity.
Qed.

(** get_all_by_type is get_all followed by a selection in memory.  With
    [is_outbound] a method it returns, in their order, the routes of
    get_all whose directionality is the one asked for; with [is_outbound] a
    plain attribute the call of line 30 fails, and get_all_by_type raises
    a TypeError as soon as there is a route, after get_all has committed. *)
Theorem get_all_by_type_selects flag s routes s' :
  get_all s = (Ok routes, s') →
  (∀ body, is_outbound = Method body →
     get_all_by_type flag s
       = (Ok (filter (λ r, outbound_flag r = flag) routes), s')) ∧
  (is_outbound = Column → routes ≠ [] →
     get_all_by_type flag s = (Raise TypeError, s')).
Proof.
  intros Hall.
  assert (get_all_by_type flag s = (filter_by_type flag routes, s')) as ->.
  { unfold get_all_by_type, lift. unfold mbind, M_bind. by rewrite Hall. }
  split.
  - intros body Hm. by rewrite (filter_by_type_method body).
  - intros Hc Hne. by rewrite filter_by_type_column.
Qed.

Lemma new_route_attrs route_data route :
  new_route route_data = Ok route →
  route_attrs route = base.delete "rule_entries_list" route_data.
Proof.
  unfold new_route, mbind, result_bind, mret, result_ret.
  destruct (new_rule_entries route_data); [|done]. by intros [= <-].
Qed.

(** A route created under an id that no route had and deleted under that
    id leaves the store as it was before the create: create appends the
    route and commits, delete finds it under the id, removes it and
    commits the routes that were there. *)
Theorem create_then_delete rid route_data s route :
  route_data !! "id" = Some (Scalar (SStr rid)) →
  get rid s = (Ok None, s) →
  validate route_data = Ok route →
  Forall identified (pending s) →
  db_accepts (assign_ids (next_id s) (pending s ++ [route])).2 = true →
  db_accepts (pending s) = true →
  ∃ created s1 n,
    create route_data true s = (Ok created, s1) ∧
    committed s1 = pending s ++ [created] ∧
    route_id created = Scalar (SStr rid) ∧
    delete rid s1 = (Ok tt, mkSession (pending s) (pending s) [] n).
Proof.
  intros Hid Hget Hvalid Hident Hacc Hacc0.
  pose proof (create_cases route_data true s) as Hcases.
  rewrite Hvalid in Hcases.
  apply validate_Ok in Hvalid as [Hnew _].
  assert (route_id route = Scalar (SStr rid)) as Hrid.
  { unfold route_id, route_getattr.
    by rewrite (new_route_attrs _ _ Hnew), lookup_delete_ne, Hid. }
  unfold flush, set_pending in Hcases; simpl in Hcases.
  rewrite assign_ids_app in Hacc, Hcases.
  rewrite (assign_ids_identified _ _ Hident) in Hacc, Hcases.
  simpl in Hacc, Hcases.
  pose proof (assign_route_ids_id (next_id s) route) as Hattrs.
  destruct (assign_route_ids (next_id s) route) as [n created].
  simpl in Hacc, Hattrs, Hcases. rewrite Hacc in Hcases. simpl in Hcases.
  rewrite lookup_app_r, Nat.sub_diag in Hcases by lia. simpl in Hcases.
  specialize (Hattrs ltac:(by rewrite Hrid)).
  assert (route_id created = Scalar (SStr rid)) as Hcid.
  { unfold route_id, route_getattr in *. by rewrite Hattrs. }
  exists created. eexists. exists n. split; [exact Hcases|].
  split; [done|]. split; [done|].
  rewrite (delete_found rid _ (length (pending s)) created).
  - rewrite session_commit_result. unfold made_durable, set_pending; simpl.
    rewrite (delete_middle (pending s) [] created), app_nil_r.
    by rewrite flush_again.
  - unfold get, made_durable; simpl.
    rewrite list_find_app_r by by apply get_missing.
    simpl. by rewrite decide_True.
Qed.

Lemma assign_ids_route_ids n routes :
  Forall (λ r, route_id r ≠ Scalar SNone) routes →
  route_id <$> (assign_ids n routes).2 = route_id <$> routes.
Proof.
  intros Hids. revert n.
  induction Hids as [|r rest Hr _ IH]; intros n; simpl; [done|].
  pose proof (assign_route_ids_id n r Hr) as Hattrs.
  destruct (assign_route_ids n r) as [n1 r'].
  specialize (IH n1). destruct (assign_ids n1 rest) as [n2 rest'].
  simpl in *. f_equal; [|done].
  unfold route_id, route_getattr. by rewrite Hattrs.
Qed.

Lemma list_find_route_ids rid (l1 l2 : list Route) :
  route_id <$> l1 = route_id <$> l2 →
  fst <$> list_find (λ r, route_id r = Scalar (SStr rid)) l1
    = fst <$> list_find (λ r, route_id r = Scalar (SStr rid)) l2.
Proof.
  intros Hids.
  pose proof (list_find_fmap route_id (λ v, v = Scalar (SStr rid)) l1) as H1.
  pose proof (list_find_fmap route_id (λ v, v = Scalar (SStr rid)) l2) as H2.
  rewrite Hids in H1. rewrite H1 in H2.
  apply (f_equal (fmap fst)) in H2. rewrite <-!option_fmap_compose in H2.
  etrans; [|etrans; [exact H2|]]; by apply option_fmap_ext; intros [].
Qed.

(** After a successful update of an existing route with a payload that
    does not name the id, in a session whose routes all have an id, get
    under the same id returns the route that update returned, at the
    address it had. *)
Theorem update_then_get rid route_data s a route updated s' :
  get rid s = (Ok (Some (a, route)), s) →
  route_data !! "id" = None →
  Forall (λ r, route_id r ≠ Scalar SNone) (pending s) →
  update rid route_data s = (Ok updated, s') →
  get rid s' = (Ok (Some (a, updated)), s').
Proof.
  intros Hget Hid Hids Hok.
  pose proof (get_found_lookup _ _ _ _ Hget) as [Ha Hrid].
  destruct (update_found_cases rid route_data s a route Hget)
    as (s1 & r1 & _ & _ & Hp & Hattrs &
        [(e0 & He & _)|[[_ He]|(s2 & updated' & Hflush & He & Hup)]]);
    rewrite He in Hok; [done|done|].
  injection Hok as -> <-.
  assert (route_id r1 = route_id route) as Hr1.
  { unfold route_id, route_getattr. rewrite Hattrs. simpl. unfold update_model.
    rewrite lookup_union_r; [done|].
    apply map_lookup_filter_None_2. left. by rewrite lookup_delete_ne. }
  assert (route_id <$> pending s1 = route_id <$> pending s) as Hsame.
  { rewrite Hp, list_fmap_insert, Hr1. apply list_insert_id.
    by rewrite list_lookup_fmap, Ha. }
  pose proof (flush_Some _ _ Hflush) as Hs2.
  assert (route_id <$> pending s2 = route_id <$> pending s) as Hids2.
  { rewrite Hs2. simpl. rewrite assign_ids_route_ids; [done|].
    rewrite Hp. apply Forall_insert; [done|]. rewrite Hr1, Hrid. done. }
  pose proof (list_find_route_ids rid _ _ Hids2) as Hfind.
  rewrite (get_found _ _ _ _ Hget) in Hfind. simpl in Hfind.
  unfold get, made_durable; simpl.
  destruct (list_find _ (pending s2)) as [[a' r']|] eqn:Hfind2; [|done].
  simpl in Hfind. injection Hfind as ->.
  apply list_find_Some in Hfind2 as (Hlook & _ & _).
  by replace r' with updated by congruence.
Qed.

End Composition.

Section Payloads.
Context `{Collaborators}.

(** *** What the payload holds under the rule-entries key *)

Lemma filters_data_of_records l : filters_data_of (Records l) = Ok l.
Proof.
  unfold filters_data_of, truthy. destruct (decide (l = [])) as [->|Hne].
  - by rewrite bool_decide_eq_true_2.
  - by rewrite bool_decide_eq_false_2.
Qed.

Lemma reconciled_insert a route route_data v l s :
  reconciled a route (<["rule_entries_list" := v]> route_data) l s
    = reconciled a route route_data l s.
Proof. unfold reconciled. by rewrite update_model_route_insert. Qed.

Lemma current_filters_unique rules i e :
  NoDup (entry_id <$> rules) → rules !! i = Some e →
  current_filters rules !! entry_id e = Some i.
Proof.
  intros Hnodup Hi.
  destruct (current_filters_is_Some rules e) as [a Ha];
    [by eapply list_elem_of_lookup_2|].
  pose proof Ha as (e' & Ha' & Hid)%current_filters_Some.
  rewrite Ha. f_equal.
  apply (NoDup_lookup (entry_id <$> rules) a i (entry_id e)); [done| |].
  - by rewrite list_lookup_fmap, Ha', <-Hid.
  - by rewrite list_lookup_fmap, Hi.
Qed.

Lemma merge_filter_own e : merge_filter (entry_attrs e) e = e.
Proof.
  destruct e as [attrs]. unfold merge_filter, update_model_entry, update_model.
  simpl. f_equal. apply map_subseteq_union, map_filter_subseteq.
Qed.

Lemma alter_fixed {A} (f : A → A) (l : list A) i x :
  l !! i = Some x → f x = x → alter f i l = l.
Proof.
  intros Hi Hf. apply list_eq. intros j. rewrite list_lookup_alter.
  case_decide; [|done]. subst. rewrite Hi. simpl. by rewrite Hf.
Qed.

Lemma lookups_of_all (l : list RuleEntry) :
  (λ a, l !!! a) <$> seq 0 (length l) = l.
Proof.
  apply list_eq. intros i. rewrite list_lookup_fmap.
  destruct (decide (i < length l)) as [Hi|Hi].
  - rewrite lookup_seq_lt by done. simpl.
    by rewrite list_lookup_lookup_total_lt.
  - rewrite (proj2 (lookup_ge_None l i)) by lia.
    rewrite (proj2 (lookup_ge_None (seq 0 (length l)) i)); [done|].
    rewrite length_seq. lia.
Qed.

Lemma filter_none {A} (P : A → Prop) `{∀ x, Decision (P x)} (l : list A) :
  Forall (λ x, ¬ P x) l → filter P l = [].
Proof.
  induction 1 as [|x l Hx _ IH]; [done|]. by rewrite filter_cons_False.
Qed.

Lemma reconcile_loop_own_prefix rules k :
  NoDup (entry_id <$> rules) →
  Forall (λ e, entry_id e ≠ SNone) rules →
  k ≤ length rules →
  reconcile_loop rules (entry_attrs <$> take k rules)
    = mkLoop rules (seq 0 k) (list_to_set (entry_id <$> take k rules)).
Proof.
  intros Hnodup Hids. induction k as [|k IH]; intros Hk.
  - by rewrite take_0.
  - destruct (lookup_lt_is_Some_2 rules k) as [e He]; [lia|].
    rewrite (take_S_r _ _ _ He), !fmap_app. simpl.
    rewrite reconcile_loop_snoc, IH by lia.
    pose proof (current_filters_unique rules k e Hnodup He) as Hcur.
    destruct (loop_body_cases (current_filters rules)
                (mkLoop rules (seq 0 k) (list_to_set (entry_id <$> take k rules)))
                (entry_attrs e))
      as [(a & _ & Ha & ->)|[[Hnone|Hnone] _]].
    + replace a with k by (change (record_id (entry_attrs e)) with (entry_id e) in Ha; congruence).
      simpl. rewrite (alter_fixed _ _ _ _ He (merge_filter_own e)).
      rewrite (list_lookup_total_correct _ _ _ He).
      rewrite list_to_set_snoc_L. f_equal. exact (eq_sym (seq_S k 0)).
    + by destruct (Forall_lookup_1 _ _ _ _ Hids He).
    + change (record_id (entry_attrs e)) with (entry_id e) in Hnone. congruence.
Qed.

(** Sending back the current rule entries of a route as they are changes
    nothing: when those entries have ids, all different, the
    reconciliation matches every record with its own entry, gives the
    route the list it had and marks no entry for deletion, and the update
    is the update with the same payload without the key. *)
Theorem update_own_rule_entries rid route_data s a route :
  get rid s = (Ok (Some (a, route)), s) →
  route_data !! "rule_entries_list"
    = Some (Records (entry_attrs <$> rule_entries_list route)) →
  NoDup (entry_id <$> rule_entries_list route) →
  Forall (λ e, entry_id e ≠ SNone) (rule_entries_list route) →
  let st := reconcile_loop (rule_entries_list route)
              (entry_attrs <$> rule_entries_list route) in
  target_entries st = rule_entries_list route ∧
  removed_filters (rule_entries_list route) st = [] ∧
  update rid route_data s = update rid (base.delete "rule_entries_list" route_data) s.
Proof.
  intros Hget Hkey Hnodup Hids st.
  assert (st = mkLoop (rule_entries_list route)
                 (seq 0 (length (rule_entries_list route)))
                 (list_to_set (entry_id <$> rule_entries_list route))) as Hst.
  { pose proof (reconcile_loop_own_prefix (rule_entries_list route)
                  (length (rule_entries_list route)) Hnodup Hids (le_n _)) as Hloop.
    by rewrite take_ge in Hloop. }
  assert (target_entries st = rule_entries_list route) as Htarget.
  { rewrite Hst. unfold target_entries; simpl. apply lookups_of_all. }
  assert (removed_filters (rule_entries_list route) st = []) as Hremoved.
  { rewrite Hst. unfold removed_filters; simpl. rewrite take_ge by done.
    apply filter_none, Forall_forall. intros e He Hout. apply Hout.
    by apply elem_of_list_to_set, list_elem_of_fmap_2. }
  split; [done|]. split; [done|].
  rewrite (update_found _ _ _ _ _ Hget), Hkey, filters_data_of_records.
  rewrite (update_found _ (base.delete "rule_entries_list" route_data) _ _ _ Hget).
  rewrite lookup_delete_eq.
  unfold reconciled, merged, set_pending, update_model_route.
  fold st. rewrite Htarget, Hremoved, app_nil_r, delete_delete_eq. done.
Qed.

(** create iterates what the payload holds under the rule-entries key:
    with None, a boolean or a non-empty string there it raises a TypeError
    and leaves the session as it was, and so does update of an id that no
    route has, which hands the payload to create. *)
Theorem create_rejects_scalar_rules route_data v s :
  route_data !! "rule_entries_list" = Some (Scalar v) → v ≠ SStr "" →
  (∀ store, create route_data store s = (Raise TypeError, s)) ∧
  (∀ rid, get rid s = (Ok None, s) →
     update rid route_data s = (Raise TypeError, s)).
Proof.
  intros Hkey Hv.
  assert (∀ d, d !! "rule_entries_list" = Some (Scalar v) →
            validate d = Raise TypeError) as Hinvalid.
  { intros d Hd.
    unfold validate, new_route, new_rule_entries, mbind, result_bind. rewrite Hd.
    destruct v as [| |str]; try done.
    destruct (String.eqb str "") eqn:Hstr; [|done].
    apply String.eqb_eq in Hstr. by subst. }
  split.
  - intros store. by apply create_invalid, Hinvalid.
  - intros rid Hget. rewrite (update_missing _ _ _ Hget).
    apply create_invalid, Hinvalid. by rewrite lookup_insert_ne.
Qed.

(** On an existing route, update reads the value under the rule-entries
    key through [or []]: a scalar that is false (None, False, the empty
    string) is handled as the empty list; a scalar that is true cannot be
    iterated as records, and update raises a TypeError (an AttributeError
    for a string) after the field merge, which stays in the unit of work,
    nothing being committed or rolled back. *)
Theorem update_rules_scalar rid route_data s a route v :
  get rid s = (Ok (Some (a, route)), s) →
  route_data !! "rule_entries_list" = Some (Scalar v) →
  (truthy_scalar v = false →
     update rid route_data s
       = update rid (<["rule_entries_list" := Records []]> route_data) s) ∧
  (truthy_scalar v = true →
     update rid route_data s
       = (Raise (match v with SStr _ => AttributeError | _ => TypeError end),
          merged a route route_data s) ∧
     committed (merged a route route_data s) = committed s ∧
     pending (merged a route route_data s) !! a
       = Some (update_model_route route route_data)).
Proof.
  intros Hget Hkey. split; intros Htruthy.
  - rewrite (update_found _ _ _ _ _ Hget), Hkey.
    rewrite (update_found _ (<["rule_entries_list" := Records []]> route_data)
               _ _ _ Hget).
    rewrite lookup_insert_eq, filters_data_of_records.
    unfold filters_data_of. simpl. rewrite Htruthy.
    by rewrite reconciled_insert, delete_insert_eq.
  - rewrite (update_found _ _ _ _ _ Hget), Hkey.
    unfold filters_data_of. simpl. rewrite Htruthy.
    split_and!; [by destruct v|done|].
    simpl. apply list_lookup_insert_eq.
    apply get_found_lookup in Hget as [Ha _]. by eapply lookup_lt_Some.
Qed.

End Payloads.

(** *** The further properties on the sample data *)

Lemma check_route_first_failure_witness :
  @check_route (reference_collaborators outbound_method) malformed_rule_route
    = Raise (InvalidRouteConfiguration "Invalid expression: unknown operator").
Proof.
  destruct (@check_route_first_failure (reference_collaborators outbound_method)
              malformed_rule_route
              (InvalidRouteConfiguration "Invalid expression: unknown operator"))
    as [_ Hfirst].
  apply (Hfirst [sample_entry "A" "1"] (mkRuleEntry malformed_rule_data)
                [sample_entry "B" "2"]).
  - vm_compute. reflexivity.
  - reflexivity.
  - apply Forall_singleton. vm_compute. reflexivity.
  - vm_compute. reflexivity.
Defined.

Lemma create_rejects_malformed_expression_witness :
  @create (reference_collaborators outbound_method) malformed_rule_payload true
     sample_session
    = (Raise (InvalidRouteConfiguration "Invalid expression: unknown operator"),
       sample_session).
Proof.
  apply (@create_rejects_malformed_expression
           (reference_collaborators outbound_method) malformed_rule_payload
           [entry_attrs (sample_entry "A" "1")] malformed_rule_data
           [entry_attrs (sample_entry "B" "2")] "unknown operator" true
           sample_session).
  - vm_compute. reflexivity.
  - vm_compute. reflexivity.
  - apply Forall_singleton. vm_compute. reflexivity.
  - vm_compute. reflexivity.
  - vm_compute. reflexivity.
Defined.

Lemma create_storage_error_rolled_back_witness :
  @create (offline_collaborators outbound_method) inbound_route_data true
     (mkSession [sample_route] [invalid_sample_route]
                (rule_entries_list sample_route) 0)
    = (Raise StorageError, sample_session).
Proof.
  destruct (@create_storage_error_rolled_back (offline_collaborators outbound_method)
              inbound_route_data
              (mkSession [sample_route] [invalid_sample_route]
                         (rule_entries_list sample_route) 0))
    as [Hrejected _].
  apply (Hrejected inbound_route).
  - vm_compute. reflexivity.
  - reflexivity.
Defined.


Lemma failure_keeps_committed_witness :
  committed (mkSession [sample_route] [invalid_sample_route]
               (rule_entries_list sample_route) 0)
    = committed sample_session.
Proof.
  destruct (@failure_keeps_committed (reference_collaborators outbound_method)
              sample_session
              (InvalidRouteConfiguration
                 "Invalid host pattern (: missing ), unterminated subpattern")
              (mkSession [sample_route] [invalid_sample_route]
                         (rule_entries_list sample_route) 0))
    as (_ & Hupdate & _).
  apply (Hupdate "r1" invalid_update_data).
  vm_compute. reflexivity.
Defined.

Lemma success_settles_witness :
  settled (mkSession [host_updated_route] [host_updated_route] [] 0).
Proof.
  destruct (@success_settles (reference_collaborators outbound_method)
              sample_session
              (mkSession [host_updated_route] [host_updated_route] [] 0))
    as (_ & Hupdate & _).
  apply (Hupdate "r1" host_update_data host_updated_route).
  vm_compute. reflexivity.
Defined.

Lemma get_all_commits_pending_witness :
  @get_all (reference_collaborators outbound_method)
     (mkSession [host_updated_route] [host_updated_route] [] 0)
    = (Ok [host_updated_route],
       mkSession [host_updated_route] [host_updated_route] [] 0).
Proof.
  refine (proj2 (proj2 (proj2 (proj2
    (@get_all_commits_pending (reference_collaborators outbound_method)
       (mkSession [sample_route] [host_updated_route] [] 0)
       [host_updated_route]
       (mkSession [host_updated_route] [host_updated_route] [] 0) _))))).
  vm_compute. reflexivity.
Defined.

Lemma get_all_by_type_selects_witness :
  @get_all_by_type (reference_collaborators outbound_method) false
     two_route_session
    = (Ok [inbound_route], two_route_session).
Proof.
  destruct (@get_all_by_type_selects (reference_collaborators outbound_method)
              false two_route_session [sample_route; inbound_route]
              two_route_session) as [Hmethod _].
  - vm_compute. reflexivity.
  - exact (Hmethod _ eq_refl).
Defined.

Lemma create_then_delete_witness :
  ∃ created s1 n,
    @create (reference_collaborators outbound_method) inbound_route_data true
       sample_session = (Ok created, s1) ∧
    committed s1 = pending sample_session ++ [created] ∧
    route_id created = Scalar (SStr "r3") ∧
    @delete (reference_collaborators outbound_method) "r3" s1
      = (Ok tt, mkSession (pending sample_session) (pending sample_session) [] n).
Proof.
  apply (@create_then_delete (reference_collaborators outbound_method) "r3"
           inbound_route_data sample_session inbound_route).
  - vm_compute. reflexivity.
  - vm_compute. reflexivity.
  - vm_compute. reflexivity.
  - repeat constructor; vm_compute; discriminate.
  - vm_compute. reflexivity.
  - vm_compute. reflexivity.
Defined.

Lemma update_then_get_witness :
  get "r1" (mkSession [host_updated_route] [host_updated_route] [] 0)
    = (Ok (Some (0, host_updated_route)),
       mkSession [host_updated_route] [host_updated_route] [] 0).
Proof.
  apply (@update_then_get (reference_collaborators outbound_method) "r1"
           host_update_data sample_session 0 sample_route).
  - vm_compute. reflexivity.
  - vm_compute. reflexivity.
  - repeat constructor; vm_compute; discriminate.
  - vm_compute. reflexivity.
Defined.

Lemma update_own_rule_entries_witness :
  @update (reference_collaborators outbound_method) "r1"
     {[ "rule_entries_list" :=
          Records (entry_attrs <$> rule_entries_list sample_route) ]}
     sample_session
    = @update (reference_collaborators outbound_method) "r1"
        (base.delete "rule_entries_list"
           {[ "rule_entries_list" :=
                Records (entry_attrs <$> rule_entries_list sample_route) ]})
        sample_session.
Proof.
  destruct (@update_own_rule_entries (reference_collaborators outbound_method)
              "r1"
              {[ "rule_entries_list" :=
                   Records (entry_attrs <$> rule_entries_list sample_route) ]}
              sample_session 0 sample_route) as (_ & _ & Hsame).
  - vm_compute. reflexivity.
  - vm_compute. reflexivity.
  - apply (bool_decide_unpack _). vm_compute. exact I.
  - repeat constructor; vm_compute; discriminate.
  - exact Hsame.
Defined.

Lemma create_rejects_scalar_rules_witness :
  @create (reference_collaborators outbound_method)
     (<["rule_entries_list" := Scalar SNone]> inbound_route_data) true
     sample_session
    = (Raise TypeError, sample_session).
Proof.
  destruct (@create_rejects_scalar_rules (reference_collaborators outbound_method)
              (<["rule_entries_list" := Scalar SNone]> inbound_route_data)
              SNone sample_session) as [Hcreate _].
  - vm_compute. reflexivity.
  - discriminate.
  - apply Hcreate.
Defined.

Lemma update_rules_scalar_witness :
  @update (reference_collaborators outbound_method) "r1"
     {[ "rule_entries_list" := Scalar (SBool true) ]} sample_session
    = (Raise TypeError, sample_session).
Proof.
  destruct (@update_rules_scalar (reference_collaborators outbound_method) "r1"
              {[ "rule_entries_list" := Scalar (SBool true) ]}
              sample_session 0 sample_route (SBool true)) as [_ Htrue].
  - vm_compute. reflexivity.
  - vm_compute. reflexivity.
  - destruct (Htrue eq_refl) as [Hraise _]. rewrite Hraise.
    vm_compute. reflexivity.
Defined.
